(** * NeuralScalar: lazy, memoised evaluation over a wired graph of scalars

    A shallow embedding of [examples/neural_scalar.h].  C++ objects live in a
    store indexed by addresses (a [NeuralScalar*] is an address, [nullptr] is
    [None]); the two [static inline] registries and the two function-local
    [static] vectors of [evaluate_network_] are fields of the program state.
    Recursion through the input graph is driven by fuel. *)

From stdpp Require Import gmap strings list fin_maps.
From Stdlib Require Import ZArith Lia.

Local Open Scope Z_scope.

(** ** The template parameters *)

(** [Scalar] with its [Utils]: the operations the header applies to scalars.
    [Scalar_default] is the value-initialised [Scalar()], the element that
    [std::vector<Scalar>(n)] is filled with. *)
Class Utils (Scalar : Type) := {
  zero : Scalar;
  Scalar_default : Scalar;
  Double : Type;
  Scalar_of_double : Double → Scalar;
  scalar_add : Scalar → Scalar → Scalar;
  scalar_sub : Scalar → Scalar → Scalar;
  scalar_mul : Scalar → Scalar → Scalar;
  scalar_div : Scalar → Scalar → Scalar;
  scalar_neg : Scalar → Scalar;
  scalar_lt : Scalar → Scalar → bool;
  scalar_le : Scalar → Scalar → bool;
  scalar_gt : Scalar → Scalar → bool;
  scalar_eq : Scalar → Scalar → bool;
  scalar_ne : Scalar → Scalar → bool
}.

(** The functions of [Utils] that [NeuralScalarUtils] forwards to. *)
Class UtilsMath (Scalar : Type) `{!Utils Scalar} := {
  sin1 : Scalar → Scalar;
  cos1 : Scalar → Scalar;
  sqrt1 : Scalar → Scalar;
  getDouble : Scalar → Double
}.

(** Largest value of the C++ [int] returned by [input_dim()]. *)
Definition INT_MAX : Z := 2147483647.

(** [static_cast<int>] of a [std::size_t]: reduction modulo 2^32 into the
    range of [int]. *)
Definition int_of_size (size : nat) : Z :=
  let z := Z.of_nat size mod 2 ^ 32 in
  if z <=? INT_MAX then z else z - 2 ^ 32.

(** [TinyNeuralNetwork<Scalar, Utils>] comes from tiny_neural_network.h.
    The class [NeuralScalar] uses the constructors and member functions
    below and nothing else of it, so the network type is a parameter.
    [compute net input output] is the content of the vector [output] after
    [net.compute(input, output)]. *)
Class NeuralNetworkType (Scalar Net : Type) := {
  TinyNeuralNetworkActivation : Type;
  NN_ACT_IDENTITY : TinyNeuralNetworkActivation;
  TinyNeuralNetworkInitialization : Type;
  NN_INIT_XAVIER : TinyNeuralNetworkInitialization;
  TinyNeuralNetworkSpecification : Type;
  net_default : Net;
  net_of_input_dim : Z → bool → Net;
  net_of_spec : TinyNeuralNetworkSpecification → Net;
  compute : Net → list Scalar → list Scalar → list Scalar;
  input_dim : Net → Z;
  output_dim : Net → Z;
  num_layers : Net → Z;
  set_input_dim : Z → Net → Net;
  add_linear_layer : TinyNeuralNetworkActivation → Z → Net → Net;
  net_initialize : TinyNeuralNetworkInitialization → Net → Net
}.

(** A [NeuralScalar*]: the address of a node, [None] for [nullptr]. *)
Abbreviation addr := positive.

Section NeuralScalar.

Context {Scalar Net : Type} `{!Utils Scalar} `{!NeuralNetworkType Scalar Net}.

(** ** Data model *)

Record NeuralScalar := mkNeuralScalar {
  value_ : Scalar;
  cache_ : Scalar;
  is_dirty_ : bool;
  inputs_ : list (option addr);
  net_ : Net;
  name_ : string;
  is_residual : bool
}.

Record NeuralBlueprint := mkNeuralBlueprint {
  input_names : list string;
  net : Net
}.

(** The program state.  [static_inputs] and [static_output] are the vectors
    [inputs] and [output] declared [static] inside [evaluate_network_]:
    [None] until control first passes their declaration.  [compute_log] is
    instrumentation only: one entry per call of [net_.compute], with the
    node whose network ran and the input vector it was given. *)
Record state := mkState {
  heap : gmap addr NeuralScalar;
  named_scalars_ : gmap string addr;
  blueprints_ : gmap string NeuralBlueprint;
  static_inputs : option (list Scalar);
  static_output : option (list Scalar);
  compute_log : list (addr * list Scalar)
}.

Definition set_value (v : Scalar) (n : NeuralScalar) : NeuralScalar :=
  mkNeuralScalar v (cache_ n) (is_dirty_ n) (inputs_ n) (net_ n) (name_ n)
    (is_residual n).
Definition set_cache (c : Scalar) (n : NeuralScalar) : NeuralScalar :=
  mkNeuralScalar (value_ n) c (is_dirty_ n) (inputs_ n) (net_ n) (name_ n)
    (is_residual n).
Definition set_is_dirty (d : bool) (n : NeuralScalar) : NeuralScalar :=
  mkNeuralScalar (value_ n) (cache_ n) d (inputs_ n) (net_ n) (name_ n)
    (is_residual n).
Definition set_inputs (l : list (option addr)) (n : NeuralScalar)
  : NeuralScalar :=
  mkNeuralScalar (value_ n) (cache_ n) (is_dirty_ n) l (net_ n) (name_ n)
    (is_residual n).
Definition set_net (w : Net) (n : NeuralScalar) : NeuralScalar :=
  mkNeuralScalar (value_ n) (cache_ n) (is_dirty_ n) (inputs_ n) w (name_ n)
    (is_residual n).
Definition set_name (x : string) (n : NeuralScalar) : NeuralScalar :=
  mkNeuralScalar (value_ n) (cache_ n) (is_dirty_ n) (inputs_ n) (net_ n) x
    (is_residual n).

Definition set_is_residual (r : bool) (n : NeuralScalar) : NeuralScalar :=
  mkNeuralScalar (value_ n) (cache_ n) (is_dirty_ n) (inputs_ n) (net_ n)
    (name_ n) r.

Definition store (a : addr) (n : NeuralScalar) (s : state) : state :=
  mkState (<[a:=n]> (heap s)) (named_scalars_ s) (blueprints_ s)
    (static_inputs s) (static_output s) (compute_log s).
Definition set_named_scalars (r : gmap string addr) (s : state) : state :=
  mkState (heap s) r (blueprints_ s) (static_inputs s) (static_output s)
    (compute_log s).
Definition set_blueprints (b : gmap string NeuralBlueprint) (s : state)
  : state :=
  mkState (heap s) (named_scalars_ s) b (static_inputs s) (static_output s)
    (compute_log s).
Definition set_static_inputs (v : option (list Scalar)) (s : state) : state :=
  mkState (heap s) (named_scalars_ s) (blueprints_ s) v (static_output s)
    (compute_log s).
Definition set_static_output (v : option (list Scalar)) (s : state) : state :=
  mkState (heap s) (named_scalars_ s) (blueprints_ s) (static_inputs s) v
    (compute_log s).
Definition log_compute (a : addr) (input : list Scalar) (s : state) : state :=
  mkState (heap s) (named_scalars_ s) (blueprints_ s) (static_inputs s)
    (static_output s) (compute_log s ++ [(a, input)]).

(** What a call can come to: a result with the state it leaves, recursion
    deeper than the fuel, or undefined behaviour (a null or dangling pointer
    dereferenced, a vector indexed out of range). *)
Inductive outcome (A : Type) : Type :=
| Ok (a : A) (s : state)
| OutOfFuel
| Undefined.
Global Arguments Ok {A} a s.
Global Arguments OutOfFuel {A}.
Global Arguments Undefined {A}.

Definition and_then {A B : Type} (m : outcome A) (k : A → state → outcome B)
  : outcome B :=
  match m with
  | Ok a s => k a s
  | OutOfFuel => OutOfFuel
  | Undefined => Undefined
  end.

Notation "'do' ( x , s ) <- m ; k" := (and_then m (λ x s, k))
  (at level 10, x name, s name, m at level 100, k at level 200).

(** ** Evaluation *)

(** Line 62: which node's inputs and network [evaluate_network_] uses.
    [named_scalars_[name_]] on a name that is not registered inserts
    [nullptr], which differs from [this] and is then dereferenced. *)
Inductive resolution := Own | Delegate (target : addr) | NullTarget.

Definition resolve (this : addr) (n : NeuralScalar) (s : state) : resolution :=
  if bool_decide (name_ n = EmptyString) then Own
  else match named_scalars_ s !! name_ n with
       | None => NullTarget
       | Some t => if bool_decide (t = this) then Own else Delegate t
       end.

(** First pass through [static std::vector<Scalar> inputs(inputs_.size())]
    and through [static std::vector<Scalar> output(1)]. *)
Definition init_static_inputs (size : nat) (s : state) : state :=
  match static_inputs s with
  | Some _ => s
  | None => set_static_inputs (Some (replicate size Scalar_default)) s
  end.
Definition init_static_output (s : state) : state :=
  match static_output s with
  | Some _ => s
  | None => set_static_output (Some [Scalar_default]) s
  end.

(** The loop of lines 66-69, from index [i] on, over the remaining entries of
    [inputs_]; [ev] is [evaluate].  A null entry is skipped and leaves
    [inputs[i]] as it is. *)
Fixpoint fill_inputs (ev : addr → state → outcome Scalar)
    (ins : list (option addr)) (i : nat) (s : state) : outcome unit :=
  match ins with
  | [] => Ok tt s
  | None :: rest => fill_inputs ev rest (S i) s
  | Some p :: rest =>
      do (v, s1) <- ev p s;
      match static_inputs s1 with
      | Some buf =>
          if bool_decide (i < length buf)%nat
          then fill_inputs ev rest (S i)
                 (set_static_inputs (Some (<[i:=v]> buf)) s1)
          else Undefined
      | None => Undefined
      end
  end.

(** Lines 70-72: run the network of node [this] on the static vectors. *)
Definition run_network (this : addr) (n : NeuralScalar) (s : state)
  : outcome Scalar :=
  let s := init_static_output s in
  match static_inputs s, static_output s with
  | Some input, Some output =>
      let output' := compute (net_ n) input output in
      let s := log_compute this input (set_static_output (Some output') s) in
      match output' with
      | o :: _ => Ok o s
      | [] => Undefined
      end
  | _, _ => Undefined
  end.

Fixpoint evaluate (fuel : nat) (this : addr) (s : state) {struct fuel}
  : outcome Scalar :=
  match fuel with
  | O => OutOfFuel
  | S fuel =>
      match heap s !! this with
      | None => Undefined
      | Some n =>
          if negb (is_dirty_ n) then Ok (cache_ n) s
          else if bool_decide (inputs_ n = []) then
            Ok (value_ n)
               (store this (set_cache (value_ n) (set_is_dirty false n)) s)
          else
            do (net_output, s1) <- evaluate_network_ fuel this s;
            match heap s1 !! this with
            | None => Undefined
            | Some n1 =>
                let c := if is_residual n1
                         then scalar_add (value_ n1) net_output
                         else net_output in
                Ok c (store this (set_is_dirty false (set_cache c n1)) s1)
            end
      end
  end
with evaluate_network_ (fuel : nat) (this : addr) (s : state) {struct fuel}
  : outcome Scalar :=
  match fuel with
  | O => OutOfFuel
  | S fuel =>
      match heap s !! this with
      | None => Undefined
      | Some n =>
          match resolve this n s with
          | NullTarget => Undefined
          | Delegate t => evaluate_network_ fuel t s
          | Own =>
              do (_, s1) <- fill_inputs (evaluate fuel) (inputs_ n) 0
                              (init_static_inputs (length (inputs_ n)) s);
              run_network this n s1
          end
      end
  end.

(** ** Construction *)

(** [NeuralScalar() = default].  [junk] is the indeterminate initial content
    of [cache_], which has no initialiser. *)
Definition NeuralScalar_default (junk : Scalar) : NeuralScalar :=
  mkNeuralScalar zero junk true [] net_default EmptyString true.

(** [NeuralScalar(const Scalar& value)]. *)
Definition NeuralScalar_of_value (junk : Scalar) (value : Scalar)
  : NeuralScalar :=
  mkNeuralScalar value junk true [] net_default EmptyString true.

(** [NeuralScalar(inputs, use_input_bias)]. *)
Definition NeuralScalar_of_inputs (junk : Scalar)
    (inputs : list (option addr)) (use_input_bias : bool) : NeuralScalar :=
  mkNeuralScalar zero junk true inputs
    (net_of_input_dim (int_of_size (length inputs)) use_input_bias)
    EmptyString true.

(** [NeuralScalar(inputs, spec)]. *)
Definition NeuralScalar_of_spec (junk : Scalar)
    (inputs : list (option addr)) (spec : TinyNeuralNetworkSpecification)
  : NeuralScalar :=
  mkNeuralScalar zero junk true inputs (net_of_spec spec) EmptyString true.

(** Access to the object at [this]; a dangling [this] is undefined. *)
Definition with_node {A : Type} (this : addr) (s : state)
    (k : NeuralScalar → outcome A) : outcome A :=
  match heap s !! this with
  | None => Undefined
  | Some n => k n
  end.

(** ** Assignment *)

(** [operator=(const NeuralScalar& rhs)]. *)
Definition operator_assign (fuel : nat) (this rhs : addr) (s : state)
  : outcome unit :=
  do (v, s1) <- evaluate fuel rhs s;
  with_node this s1 (λ n,
    Ok tt (store this (set_is_dirty true (set_value v n)) s1)).

(** [operator=(const Scalar& rhs)]. *)
Definition operator_assign_scalar (this : addr) (rhs : Scalar) (s : state)
  : outcome unit :=
  with_node this s (λ n,
    Ok tt (store this (set_is_dirty true (set_value rhs n)) s)).

(** [operator=(double rhs)]. *)
Definition operator_assign_double (this : addr) (rhs : Double) (s : state)
  : outcome unit :=
  with_node this s (λ n,
    Ok tt (store this
             (set_is_dirty true (set_value (Scalar_of_double rhs) n)) s)).

(** The four compound assignments differ in the scalar operation only. *)
Definition compound_assign (op : Scalar → Scalar → Scalar) (fuel : nat)
    (this operand : addr) (s : state) : outcome unit :=
  do (v, s1) <- evaluate fuel operand s;
  with_node this s1 (λ n,
    Ok tt (store this (set_is_dirty true (set_value (op (value_ n) v) n)) s1)).

Definition operator_add_assign := compound_assign scalar_add.
Definition operator_sub_assign := compound_assign scalar_sub.
Definition operator_mul_assign := compound_assign scalar_mul.
Definition operator_div_assign := compound_assign scalar_div.

(** ** Wiring *)

Definition initialize (init_method : TinyNeuralNetworkInitialization)
    (n : NeuralScalar) : NeuralScalar :=
  set_net (net_initialize init_method (net_ n)) n.

Definition is_dirty (n : NeuralScalar) : bool := is_dirty_ n.

Definition set_dirty (n : NeuralScalar) : NeuralScalar :=
  if bool_decide (output_dim (net_ n) ≠ 0) then set_is_dirty true n else n.

(** [connect(scalar, activation)].  [net_.input_dim() + 1] is an [int]
    addition: it is undefined when it overflows. *)
Definition connect (this : addr) (scalar : option addr)
    (activation : TinyNeuralNetworkActivation) (s : state) : outcome unit :=
  with_node this s (λ n,
    let n := set_inputs (inputs_ n ++ [scalar]) n in
    if bool_decide (INT_MAX ≤ input_dim (net_ n)) then Undefined
    else
      let n := set_net (set_input_dim (input_dim (net_ n) + 1) (net_ n)) n in
      let n := if bool_decide (num_layers (net_ n) = 1)
               then set_net (add_linear_layer activation 1 (net_ n)) n
               else n in
      let n := initialize NN_INIT_XAVIER n in
      Ok tt (store this (set_dirty n) s)).

(** ** The registries *)

Definition retrieve (name : string) (s : state) : option addr :=
  named_scalars_ s !! name.

Definition add_blueprint (scalar_name : string) (input_names : list string)
    (net : Net) (s : state) : state :=
  set_blueprints
    (<[scalar_name := mkNeuralBlueprint input_names net]> (blueprints_ s)) s.

Definition dquote : string := String (Ascii.ascii_of_nat 34) EmptyString.
Definition newline : string := String (Ascii.ascii_of_nat 10) EmptyString.

(** The text written to [std::cerr] before [assert(0)]. *)
Definition diagnostic (input_name : string) : string :=
  ("NeuralScalar named " +:+ dquote +:+ input_name +:+ dquote
   +:+ " has been requested before it was assigned." +:+ newline)%string.

(** How [assign] ends: it returns, or [assert(0)] terminates the process
    after the diagnostic (the state is the one at termination), or [this]
    dangles. *)
Inductive assign_result :=
| Assigned (s : state)
| Aborted (message : string) (s : state)
| AssignUndefined.

(** The loop of lines 162-170 on the object [n]: either the name that
    [retrieve] does not find, with the object as it is then, or the object
    after all the [push_back]s. *)
Fixpoint push_blueprint_inputs (names : list string) (n : NeuralScalar)
    (s : state) : (string * NeuralScalar) + NeuralScalar :=
  match names with
  | [] => inr n
  | input_name :: rest =>
      match retrieve input_name s with
      | None => inl (input_name, n)
      | Some input =>
          push_blueprint_inputs rest
            (set_inputs (inputs_ n ++ [Some input]) n) s
      end
  end.

Definition assign (this : addr) (name : string) (s : state) : assign_result :=
  match heap s !! this with
  | None => AssignUndefined
  | Some n =>
      let n := set_name name n in
      match blueprints_ s !! name with
      | Some blueprint =>
          match push_blueprint_inputs (input_names blueprint) n s with
          | inl (input_name, n) =>
              Aborted (diagnostic input_name) (store this n s)
          | inr n =>
              let s := store this (set_net (net blueprint) n) s in
              Assigned (set_named_scalars (<[name:=this]> (named_scalars_ s)) s)
          end
      | None =>
          let s := store this n s in
          Assigned (set_named_scalars (<[name:=this]> (named_scalars_ s)) s)
      end
  end.

(** ** Operators between nodes

    Each evaluates both operands and builds a temporary
    [NeuralScalar(const Scalar&)].  Which of [lhs.evaluate()] and
    [rhs.evaluate()] runs first is left to the compiler. *)
Inductive operand_order := LhsFirst | RhsFirst.

Definition evaluate_both (order : operand_order) (fuel : nat)
    (lhs rhs : addr) (s : state) : outcome (Scalar * Scalar) :=
  match order with
  | LhsFirst =>
      do (x, s1) <- evaluate fuel lhs s;
      do (y, s2) <- evaluate fuel rhs s1;
      Ok (x, y) s2
  | RhsFirst =>
      do (y, s1) <- evaluate fuel rhs s;
      do (x, s2) <- evaluate fuel lhs s1;
      Ok (x, y) s2
  end.

(** [op] takes the value of [lhs], then the value of [rhs]. *)
Definition binary_operator (op : Scalar → Scalar → Scalar) (junk : Scalar)
    (order : operand_order) (fuel : nat) (lhs rhs : addr) (s : state)
  : outcome NeuralScalar :=
  do (xy, s') <- evaluate_both order fuel lhs rhs s;
  Ok (NeuralScalar_of_value junk (op xy.1 xy.2)) s'.

Definition operator_add junk order fuel (lhs rhs : addr) :=
  binary_operator scalar_add junk order fuel lhs rhs.
Definition operator_sub junk order fuel (lhs rhs : addr) :=
  binary_operator scalar_sub junk order fuel lhs rhs.
(** [operator*] is written [rhs.evaluate() * lhs.evaluate()]. *)
Definition operator_mul junk order fuel (lhs rhs : addr) :=
  binary_operator (λ x y, scalar_mul y x) junk order fuel lhs rhs.
Definition operator_div junk order fuel (lhs rhs : addr) :=
  binary_operator scalar_div junk order fuel lhs rhs.

Definition comparison (rel : Scalar → Scalar → bool)
    (order : operand_order) (fuel : nat) (lhs rhs : addr) (s : state)
  : outcome bool :=
  do (xy, s') <- evaluate_both order fuel lhs rhs s;
  Ok (rel xy.1 xy.2) s'.

Definition operator_lt := comparison scalar_lt.
Definition operator_le := comparison scalar_le.
Definition operator_gt := comparison scalar_gt.
Definition operator_eq := comparison scalar_eq.
Definition operator_ne := comparison scalar_ne.

(** Unary [operator-]. *)
Definition operator_neg (junk : Scalar) (fuel : nat) (rhs : addr) (s : state)
  : outcome NeuralScalar :=
  do (x, s1) <- evaluate fuel rhs s;
  Ok (NeuralScalar_of_value junk (scalar_neg x)) s1.

(** ** Vocabulary of the statements *)

(** The part of a node that a [const] member function cannot write: all but
    the [mutable] members [cache_] and [is_dirty_]. *)
Definition skeleton (n : NeuralScalar)
  : Scalar * list (option addr) * Net * string * bool :=
  (value_ n, inputs_ n, net_ n, name_ n, is_residual n).

(** The graph: every node's skeleton, and the two registries. *)
Definition wiring (s : state)
  : gmap addr (Scalar * list (option addr) * Net * string * bool)
    * gmap string addr * gmap string NeuralBlueprint :=
  (skeleton <$> heap s, named_scalars_ s, blueprints_ s).

(** The writes that [evaluate] and [evaluate_network_] perform. *)
Inductive touch : state → state → Prop :=
| touch_memo s a n c :
    heap s !! a = Some n → (inputs_ n = [] → c = value_ n) →
    touch s (store a (set_is_dirty false (set_cache c n)) s)
| touch_init_inputs s size :
    touch s (init_static_inputs size s)
| touch_write_input s buf i v :
    static_inputs s = Some buf → (i < length buf)%nat →
    touch s (set_static_inputs (Some (<[i:=v]> buf)) s)
| touch_compute s a input output :
    touch s (log_compute a input
               (set_static_output (Some output) (init_static_output s))).

(** A clean node without inputs caches its own value. *)
Definition cache_coherent (n : NeuralScalar) : Prop :=
  is_dirty_ n = false → inputs_ n = [] → cache_ n = value_ n.

Definition coherent (s : state) : Prop :=
  ∀ a n, heap s !! a = Some n → cache_coherent n.

(** A node whose evaluation runs no network, and what [evaluate] returns
    for it. *)
Definition quiet (n : NeuralScalar) : Prop :=
  is_dirty_ n = false ∨ inputs_ n = [].
Definition settled (n : NeuralScalar) : Scalar :=
  if is_dirty_ n then value_ n else cache_ n.

(** The entry that an element of [inputs_] is meant to give to the network:
    the value of a present input, [Scalar()] for a null one. *)
Definition input_value (s : state) (input : option addr) : Scalar :=
  match input with
  | Some p => from_option settled Scalar_default (heap s !! p)
  | None => Scalar_default
  end.

(** The static vector after the loop of lines 66-69 has written the values
    [vals] of the present inputs over its first entries. *)
Fixpoint overwrite (vals : list (option Scalar)) (buf : list Scalar)
  : list Scalar :=
  match vals, buf with
  | v :: vals, b :: buf => from_option id b v :: overwrite vals buf
  | _, _ => buf
  end.

(** Every name a node carries is in the registry. *)
Definition names_registered (s : state) : Prop :=
  ∀ a n, heap s !! a = Some n → name_ n ≠ EmptyString →
         is_Some (named_scalars_ s !! name_ n).

(** ** The states a client can bring about

    One step is one use of the public interface of the class: the four
    constructors, the implicit copy constructor and destructor, and the
    public members.  The operators between nodes are covered by their parts:
    calls of [evaluate] and the construction of the temporary. *)
Inductive constructed : NeuralScalar → Prop :=
| constructed_default junk : constructed (NeuralScalar_default junk)
| constructed_of_value junk value :
    constructed (NeuralScalar_of_value junk value)
| constructed_of_inputs junk inputs use_input_bias :
    constructed (NeuralScalar_of_inputs junk inputs use_input_bias)
| constructed_of_spec junk inputs spec :
    constructed (NeuralScalar_of_spec junk inputs spec).

Definition destroy (a : addr) (s : state) : state :=
  mkState (delete a (heap s)) (named_scalars_ s) (blueprints_ s)
    (static_inputs s) (static_output s) (compute_log s).

Inductive compound_operation : (Scalar → Scalar → Scalar) → Prop :=
| compound_add : compound_operation scalar_add
| compound_sub : compound_operation scalar_sub
| compound_mul : compound_operation scalar_mul
| compound_div : compound_operation scalar_div.

Inductive api_step : state → state → Prop :=
| api_construct s a n :
    heap s !! a = None → constructed n → api_step s (store a n s)
| api_copy s a b n :
    heap s !! a = None → heap s !! b = Some n → api_step s (store a n s)
| api_destroy s a : api_step s (destroy a s)
| api_evaluate s fuel a v s' :
    evaluate fuel a s = Ok v s' → api_step s s'
| api_operator_assign s fuel a rhs s' :
    operator_assign fuel a rhs s = Ok tt s' → api_step s s'
| api_operator_assign_scalar s a rhs s' :
    operator_assign_scalar a rhs s = Ok tt s' → api_step s s'
| api_operator_assign_double s a rhs s' :
    operator_assign_double a rhs s = Ok tt s' → api_step s s'
| api_compound_assign s op fuel a operand s' :
    compound_operation op →
    compound_assign op fuel a operand s = Ok tt s' → api_step s s'
| api_connect s a scalar activation s' :
    connect a scalar activation s = Ok tt s' → api_step s s'
| api_initialize s a n init_method :
    heap s !! a = Some n → api_step s (store a (initialize init_method n) s)
| api_set_dirty s a n :
    heap s !! a = Some n → api_step s (store a (set_dirty n) s)
| api_net s a n w :
    heap s !! a = Some n → api_step s (store a (set_net w n) s)
| api_is_residual s a n r :
    heap s !! a = Some n → api_step s (store a (set_is_residual r n) s)
| api_assign s a name s' :
    assign a name s = Assigned s' → api_step s s'
| api_add_blueprint s scalar_name input_names net :
    api_step s (add_blueprint scalar_name input_names net s).

(** The state of a program that has not yet created a node. *)
Definition initial_state : state := mkState ∅ ∅ ∅ None None [].

Definition reachable (s : state) : Prop := rtc api_step initial_state s.

(** A graph on which evaluation comes to an end without undefined behaviour:
    [rank] decreases along every input edge and every delegation, all targets
    are live, each present input sits at an index below [room], the static
    vector [inputs] has, or will get when first declared, at least [room]
    entries, and every network writes at least one output. *)
Record well_wired (rank : addr → nat) (room : nat) (s : state) : Prop := {
  ww_static : ∀ buf, static_inputs s = Some buf → (room ≤ length buf)%nat;
  ww_first : static_inputs s = None →
    ∀ a n, heap s !! a = Some n → inputs_ n ≠ [] →
           (room ≤ length (inputs_ n))%nat;
  ww_inputs : ∀ a n i p,
    heap s !! a = Some n → inputs_ n !! i = Some (Some p) →
    (i < room)%nat ∧ is_Some (heap s !! p) ∧ (rank p < rank a)%nat;
  ww_alias : ∀ a n,
    heap s !! a = Some n →
    match resolve a n s with
    | Own => True
    | NullTarget => False
    | Delegate t =>
        ∃ m, heap s !! t = Some m ∧ (rank t < rank a)%nat
             ∧ (static_inputs s = None → (room ≤ length (inputs_ m))%nat)
    end;
  ww_output : ∀ a n input output,
    heap s !! a = Some n → compute (net_ n) input output ≠ []
}.

(** ** [NeuralScalarUtils] *)

(** [scalar_from_double(value)]. *)
Definition scalar_from_double (junk : Scalar) (value : Double)
  : NeuralScalar :=
  NeuralScalar_of_value junk (Scalar_of_double value).

(** [sin1], [cos1] and [sqrt1]: the operand is evaluated, the function of
    [Utils] applied, and the scalar converted by
    [NeuralScalar(const Scalar&)]. *)
Definition unary_function (f : Scalar → Scalar) (junk : Scalar) (fuel : nat)
    (v : addr) (s : state) : outcome NeuralScalar :=
  do (x, s1) <- evaluate fuel v s;
  Ok (NeuralScalar_of_value junk (f x)) s1.

Context `{!UtilsMath Scalar}.

Definition NeuralScalarUtils_sin1 := unary_function sin1.
Definition NeuralScalarUtils_cos1 := unary_function cos1.
Definition NeuralScalarUtils_sqrt1 := unary_function sqrt1.

(** [NeuralScalarUtils::getDouble(v)]. *)
Definition NeuralScalarUtils_getDouble (fuel : nat) (v : addr) (s : state)
  : outcome Double :=
  do (x, s1) <- evaluate fuel v s;
  Ok (getDouble x) s1.

(** [to_neural(values)]: every element is built by
    [NeuralScalar(const Scalar&)]; [junk i] is the indeterminate cache of
    element [i]. *)
Definition to_neural (junk : nat → Scalar) (values : list Scalar)
  : list NeuralScalar :=
  imap (λ i value, NeuralScalar_of_value (junk i) value) values.

(** The loop of [from_neural], from index [i] on: [values] are the addresses
    of the remaining elements, [output] the vector being filled. *)
Fixpoint from_neural_loop (fuel : nat) (values : list addr) (i : nat)
    (output : list Scalar) (s : state) : outcome (list Scalar) :=
  match values with
  | [] => Ok output s
  | a :: rest =>
      do (v, s1) <- evaluate fuel a s;
      from_neural_loop fuel rest (S i) (<[i:=v]> output) s1
  end.

(** [from_neural(values)]: [output] starts as [values.size()]
    value-initialised scalars. *)
Definition from_neural (fuel : nat) (values : list addr) (s : state)
  : outcome (list Scalar) :=
  from_neural_loop fuel values 0 (replicate (length values) Scalar_default) s.

(** The elements [nodes] of a vector, living at the addresses [addrs]. *)
Definition place (addrs : list addr) (nodes : list NeuralScalar) (s : state)
  : state :=
  foldr (λ an s, store an.1 an.2 s) s (zip addrs nodes).

(** ** More vocabulary *)

(** Every node of [C] is dirty, evaluates its own network, and has an input
    in [C]: from each of them an input path leads back into [C]. *)
Definition cyclic (C : addr → Prop) (s : state) : Prop :=
  ∀ a, C a →
    ∃ n i q, heap s !! a = Some n ∧ is_dirty_ n = true
             ∧ resolve a n s = Own
             ∧ inputs_ n !! i = Some (Some q) ∧ C q.

(** [evaluate_network_] on [this] returns what [evaluate_network_] on [t]
    returns (lines 62-63): the name of [this] is registered to the other
    node [t]. *)
Definition delegates (s : state) (this t : addr) : Prop :=
  ∃ n, heap s !! this = Some n ∧ resolve this n s = Delegate t.

(** What [assign] leaves, changed by [f]. *)
Definition assign_result_map (f : state → state) (r : assign_result)
  : assign_result :=
  match r with
  | Assigned s => Assigned (f s)
  | Aborted message s => Aborted message (f s)
  | AssignUndefined => AssignUndefined
  end.

End NeuralScalar.

Arguments NeuralScalar : clear implicits.
Arguments NeuralBlueprint : clear implicits.
Arguments state : clear implicits.
Arguments outcome : clear implicits.
Arguments assign_result : clear implicits.

(** ** A concrete instance: integer scalars, a summing network *)

Module Sample.

#[export] Instance Z_Utils : Utils Z := {|
  zero := 0;
  Scalar_default := 0;
  Double := Z;
  Scalar_of_double := λ d, d;
  scalar_add := Z.add;
  scalar_sub := Z.sub;
  scalar_mul := Z.mul;
  scalar_div := Z.div;
  scalar_neg := Z.opp;
  scalar_lt := Z.ltb;
  scalar_le := Z.leb;
  scalar_gt := Z.gtb;
  scalar_eq := Z.eqb;
  scalar_ne := λ x y, negb (Z.eqb x y)
|}.

(** Integer stand-ins for the three functions. *)
#[export] Instance Z_UtilsMath : UtilsMath Z := {|
  sin1 := λ x, x - 1;
  cos1 := λ x, x + 1;
  sqrt1 := Z.sqrt;
  getDouble := λ x, x
|}.

(** Modelled from the spec: the NeuralNetwork collaborator, whose header is
    not among the sources.  Only the layer widths are kept, the input layer
    first ([input_dim], [output_dim], [num_layers], [set_input_dim],
    [add_linear_layer], [initialize]); [compute] is the known deterministic
    function the spec suggests for tests, the identity-weighted sum of the
    inputs, and writes a single output. *)
Record SumNet := mkSumNet { input_width : Z; widths : list Z }.

Definition sum_list (l : list Z) : Z := foldr Z.add 0 l.

#[export] Instance SumNet_Network : NeuralNetworkType Z SumNet := {|
  TinyNeuralNetworkActivation := nat;
  NN_ACT_IDENTITY := 0%nat;
  TinyNeuralNetworkInitialization := nat;
  NN_INIT_XAVIER := 0%nat;
  TinyNeuralNetworkSpecification := SumNet;
  net_default := mkSumNet 0 [];
  net_of_input_dim := λ d _, mkSumNet d [];
  net_of_spec := λ w, w;
  compute := λ _ input _, [sum_list input];
  input_dim := input_width;
  output_dim := λ w, List.last (widths w) (input_width w);
  num_layers := λ w, Z.of_nat (S (length (widths w)));
  set_input_dim := λ d w, mkSumNet d (widths w);
  add_linear_layer := λ _ units w, mkSumNet (input_width w) (widths w ++ [units]);
  net_initialize := λ _ w, w
|}.

Definition leaf (v : Z) : NeuralScalar Z SumNet := NeuralScalar_of_value 0 v.

Definition state_of (h : gmap addr (NeuralScalar Z SumNet))
    (r : gmap string addr) (b : gmap string (NeuralBlueprint SumNet))
  : state Z SumNet :=
  mkState h r b None None [].

(** [NeuralScalar a(5), p({&a}), q({nullptr}), r({nullptr, nullptr});] at
    the addresses 1 to 4. *)
Definition null_input_state : state Z SumNet :=
  state_of (<[1%positive := leaf 5]>
            (<[2%positive := NeuralScalar_of_inputs 0 [Some 1%positive] true]>
             (<[3%positive := NeuralScalar_of_inputs 0 [None] true]>
              (<[4%positive := NeuralScalar_of_inputs 0 [None; None] true]>
               ∅))))
    ∅ ∅.

(** [NeuralScalar x(5), a(7), b({&x, &x}), c({&a, &b});] at the addresses
    1 to 4. *)
Definition nested_state : state Z SumNet :=
  state_of (<[1%positive := leaf 5]>
            (<[2%positive := leaf 7]>
             (<[3%positive :=
                  NeuralScalar_of_inputs 0 [Some 1%positive; Some 1%positive]
                    true]>
              (<[4%positive :=
                   NeuralScalar_of_inputs 0 [Some 2%positive; Some 3%positive]
                     true]> ∅))))
    ∅ ∅.

(** Node 2 holds the name x; node 3 was given the same name earlier. *)
Definition holder : NeuralScalar Z SumNet :=
  mkNeuralScalar 10 0 true [Some 1%positive] (mkSumNet 1 [1]) "x" true.
Definition alias : NeuralScalar Z SumNet :=
  mkNeuralScalar 3 0 true [Some 1%positive] (mkSumNet 1 [1]) "x" true.
Definition alias_state : state Z SumNet :=
  state_of (<[1%positive := leaf 5]>
            (<[2%positive := holder]> (<[3%positive := alias]> ∅)))
    {[ "x"%string := 2%positive ]} ∅.

(** Node 1 holds the name x, a blueprint for y asks for x, and node 3 has
    node 2 as its input already. *)
Definition blueprint_state : state Z SumNet :=
  state_of (<[1%positive := set_name "x" (leaf 5)]>
            (<[2%positive := leaf 9]>
             (<[3%positive := NeuralScalar_of_inputs 0 [Some 2%positive] true]>
              ∅)))
    {[ "x"%string := 1%positive ]}
    {[ "y"%string := mkNeuralBlueprint ["x"%string] (mkSumNet 1 [1]) ]}.

(** The same, the blueprint asking for a name z that nobody holds. *)
Definition unresolved_state : state Z SumNet :=
  state_of (<[1%positive := set_name "x" (leaf 5)]>
            (<[3%positive := leaf 0]> ∅))
    {[ "x"%string := 1%positive ]}
    {[ "y"%string :=
         mkNeuralBlueprint ["x"%string; "z"%string] (mkSumNet 2 [1]) ]}.

(** Node 3 has been evaluated and is clean; node 1 holds the name x and a
    blueprint for y asks for x. *)
Definition evaluated : NeuralScalar Z SumNet :=
  mkNeuralScalar 5 5 false [] (mkSumNet 0 []) EmptyString true.
Definition clean_state : state Z SumNet :=
  state_of (<[1%positive := set_name "x" (leaf 5)]>
            (<[3%positive := evaluated]> ∅))
    {[ "x"%string := 1%positive ]}
    {[ "y"%string := mkNeuralBlueprint ["x"%string] (mkSumNet 1 [1]) ]}.

Definition sample_rank (a : addr) : nat := Pos.to_nat a.

(** [NeuralScalar a, b; a.connect(&b); b.connect(&a);] at the addresses 1
    and 2: each is the other's input. *)
Definition cycle_state : state Z SumNet :=
  state_of (<[1%positive :=
               mkNeuralScalar 0 0 true [Some 2%positive] (mkSumNet 1 [1])
                 EmptyString true]>
            (<[2%positive :=
                 mkNeuralScalar 0 0 true [Some 1%positive] (mkSumNet 1 [1])
                   EmptyString true]> ∅))
    ∅ ∅.

(** [null_input_state] after [a], at the address 1, has gone out of
    scope: the node at 2 still has its address as input. *)
Definition dangling_state : state Z SumNet := destroy 1 null_input_state.

(** A chain of registrations.  Node 3 holds the name y; node 4 was given the
    name x and then the name y, before node 3 took y; node 5 was given the
    name x before node 4.  So x is registered to node 4, whose own name y
    is registered to node 3. *)
Definition chain_head : NeuralScalar Z SumNet :=
  mkNeuralScalar 10 0 true [Some 2%positive] (mkSumNet 1 [1]) "y" true.
Definition chain_link : NeuralScalar Z SumNet :=
  mkNeuralScalar 0 0 true [Some 1%positive] (mkSumNet 1 [1]) "y" true.
Definition chain_alias : NeuralScalar Z SumNet :=
  mkNeuralScalar 3 0 true [Some 1%positive] (mkSumNet 1 [1]) "x" true.
Definition chain_state : state Z SumNet :=
  state_of (<[1%positive := leaf 5]>
            (<[2%positive := leaf 7]>
             (<[3%positive := chain_head]>
              (<[4%positive := chain_link]>
               (<[5%positive := chain_alias]> ∅)))))
    (<["y"%string := 3%positive]> {[ "x"%string := 4%positive ]}) ∅.

(** [nested_state] in a process where an earlier run of a network on a node
    with one input has declared the static input vector with one entry. *)
Definition short_vector_state : state Z SumNet :=
  set_static_inputs (Some [0]) nested_state.

End Sample.

(** * Spatial vectors

    A shallow embedding of [src/math/spatial_vector.hpp]: a 6-vector kept as
    two 3-vectors, and its product with a 6x6 matrix. *)

Module Spatial.

(** The template parameter [Algebra]: its scalar, 3-vector and 6x6 matrix
    types with the operations that the three structs apply to them.
    [component v i] reads [v[i]], [set_component v i x] is [v] after a write
    of [x] through the reference [v[i]], [entry m i j] is [m(i, j)]. *)
Class Algebra (Scalar Vector3 Matrix6 : Type) := {
  zero3 : Vector3;
  set_zero3 : Vector3 → Vector3;
  component : Vector3 → Z → Scalar;
  set_component : Vector3 → Z → Scalar → Vector3;
  entry : Matrix6 → Z → Z → Scalar;
  plus : Scalar → Scalar → Scalar;
  times : Scalar → Scalar → Scalar;
  plus3 : Vector3 → Vector3 → Vector3;
  minus3 : Vector3 → Vector3 → Vector3;
  opposite3 : Vector3 → Vector3;
  scale3 : Scalar → Vector3 → Vector3
}.

Section SpatialVector.

Context {Scalar Vector3 Matrix6 : Type} `{!Algebra Scalar Vector3 Matrix6}.

Record SpatialVector := mkSpatialVector {
  top : Vector3;
  bottom : Vector3
}.

(** [SpatialVector() = default]. *)
Definition SpatialVector_default : SpatialVector :=
  mkSpatialVector zero3 zero3.

(** [operator[](int i) const]. *)
Definition index (v : SpatialVector) (i : Z) : Scalar :=
  if i <? 3 then component (top v) i else component (bottom v) (i - 3).

(** A write of [x] through the reference that [operator[](int i)]
    returns. *)
Definition assign_index (v : SpatialVector) (i : Z) (x : Scalar)
  : SpatialVector :=
  if i <? 3 then mkSpatialVector (set_component (top v) i x) (bottom v)
  else mkSpatialVector (top v) (set_component (bottom v) (i - 3) x).

Definition set_zero (v : SpatialVector) : SpatialVector :=
  mkSpatialVector (set_zero3 (top v)) (set_zero3 (bottom v)).

(** [operator*(const Matrix6 &m, const SpatialVector &v)]: the two loops
    over [i] and [j] from 0 to 5 with [result[i] += m(i, j) * v[j]]. *)
Definition operator_mul_matrix (m : Matrix6) (v : SpatialVector)
  : SpatialVector :=
  foldl (λ result i,
           foldl (λ result j,
                    assign_index result i
                      (plus (index result i)
                         (times (entry m i j) (index v j))))
                 result (seqZ 0 6))
        SpatialVector_default (seqZ 0 6).

(** [MotionVector] and [ForceVector] derive from [SpatialVector] and define
    the same operators with the same bodies. *)
Definition operator_sub (a vec : SpatialVector) : SpatialVector :=
  mkSpatialVector (minus3 (top a) (top vec)) (minus3 (bottom a) (bottom vec)).
Definition operator_add (a vec : SpatialVector) : SpatialVector :=
  mkSpatialVector (plus3 (top a) (top vec)) (plus3 (bottom a) (bottom vec)).
Definition operator_neg (a : SpatialVector) : SpatialVector :=
  mkSpatialVector (opposite3 (top a)) (opposite3 (bottom a)).
Definition operator_mul (a : SpatialVector) (s : Scalar) : SpatialVector :=
  mkSpatialVector (scale3 s (top a)) (scale3 s (bottom a)).

(** Row [i] of [m] times [v], summed from the left as the inner loop does,
    starting from [start]. *)
Definition row_times (m : Matrix6) (v : SpatialVector) (i : Z)
    (start : Scalar) : Scalar :=
  foldl (λ sum j, plus sum (times (entry m i j) (index v j))) start
    (seqZ 0 6).

End SpatialVector.

Arguments SpatialVector : clear implicits.

(** Integer vectors and matrices. *)
Record V3 := mkV3 { x0 : Z; x1 : Z; x2 : Z }.

Definition V3_component (v : V3) (i : Z) : Z :=
  if i =? 0 then x0 v else if i =? 1 then x1 v else x2 v.
Definition V3_set_component (v : V3) (i : Z) (x : Z) : V3 :=
  if i =? 0 then mkV3 x (x1 v) (x2 v)
  else if i =? 1 then mkV3 (x0 v) x (x2 v)
  else mkV3 (x0 v) (x1 v) x.

#[export] Instance Z_Algebra : Algebra Z V3 (Z → Z → Z) := {|
  zero3 := mkV3 0 0 0;
  set_zero3 := λ _, mkV3 0 0 0;
  component := V3_component;
  set_component := V3_set_component;
  entry := λ m i j, m i j;
  plus := Z.add;
  times := Z.mul;
  plus3 := λ a b, mkV3 (x0 a + x0 b) (x1 a + x1 b) (x2 a + x2 b);
  minus3 := λ a b, mkV3 (x0 a - x0 b) (x1 a - x1 b) (x2 a - x2 b);
  opposite3 := λ a, mkV3 (- x0 a) (- x1 a) (- x2 a);
  scale3 := λ s a, mkV3 (s * x0 a) (s * x1 a) (s * x2 a)
|}.

Definition identity6 : Z → Z → Z := λ i j, if i =? j then 1 else 0.

Definition sample_vector : SpatialVector V3 :=
  mkSpatialVector (mkV3 1 2 3) (mkV3 4 5 6).

Definition sample_matrix : Z → Z → Z := λ i j, 6 * i + j.

End Spatial.

(** * Properties *)

Section Properties.

Context {Scalar Net : Type} `{!Utils Scalar} `{!NeuralNetworkType Scalar Net}.

Implicit Types (s : state Scalar Net) (n : NeuralScalar Scalar Net).
Implicit Types (a this : addr) (v : Scalar).

(** ** Sequencing *)

Lemma and_then_Ok {A B : Type} (m : outcome Scalar Net A)
    (k : A → state Scalar Net → outcome Scalar Net B) b s' :
  and_then m k = Ok b s' ↔ ∃ x s1, m = Ok x s1 ∧ k x s1 = Ok b s'.
Proof.
  split.
  - destruct m as [x s1| |]; simpl; intros Hk; try discriminate.
    by exists x, s1.
  - intros (x & s1 & -> & Hk). exact Hk.
Qed.

(** ** One level of the recursion *)

Lemma evaluate_S fuel this s :
  evaluate (S fuel) this s
  = match heap s !! this with
    | None => Undefined
    | Some n =>
        if negb (is_dirty_ n) then Ok (cache_ n) s
        else if bool_decide (inputs_ n = []) then
          Ok (value_ n)
             (store this (set_cache (value_ n) (set_is_dirty false n)) s)
        else
          and_then (evaluate_network_ fuel this s) (λ net_output s1,
            match heap s1 !! this with
            | None => Undefined
            | Some n1 =>
                let c := if is_residual n1
                         then scalar_add (value_ n1) net_output
                         else net_output in
                Ok c (store this (set_is_dirty false (set_cache c n1)) s1)
            end)
    end.
Proof. reflexivity. Qed.

Lemma evaluate_network_S fuel this s :
  evaluate_network_ (S fuel) this s
  = match heap s !! this with
    | None => Undefined
    | Some n =>
        match resolve this n s with
        | NullTarget => Undefined
        | Delegate t => evaluate_network_ fuel t s
        | Own =>
            and_then
              (fill_inputs (evaluate fuel) (inputs_ n) 0
                 (init_static_inputs (length (inputs_ n)) s))
              (λ _ s1, run_network this n s1)
        end
    end.
Proof. reflexivity. Qed.

(** ** More fuel does not change a result *)

Lemma fill_inputs_mono ev ev' ins :
  (∀ p s v s', ev p s = Ok v s' → ev' p s = Ok v s') →
  ∀ i s u s', fill_inputs ev ins i s = Ok u s' →
              fill_inputs ev' ins i s = Ok u s'.
Proof.
  intros Hev. induction ins as [|[p|] rest IH]; intros i s u s' H;
    simpl in *; [done| |by apply IH].
  apply and_then_Ok in H as (v & s1 & Hp & H).
  rewrite (Hev _ _ _ _ Hp). simpl.
  destruct (static_inputs s1) as [buf|]; [|done].
  case_bool_decide; [by apply IH|done].
Qed.

Lemma evaluate_fuel_S fuel :
  (∀ a s v s', evaluate fuel a s = Ok v s' →
               evaluate (S fuel) a s = Ok v s')
  ∧ (∀ a s v s', evaluate_network_ fuel a s = Ok v s' →
                 evaluate_network_ (S fuel) a s = Ok v s').
Proof.
  induction fuel as [|fuel [IHe IHn]]; [by split|].
  split; intros a s v s' H.
  - rewrite evaluate_S in H |- *.
    destruct (heap s !! a) as [n|]; [|done].
    destruct (negb (is_dirty_ n)); [done|].
    case_bool_decide; [done|].
    apply and_then_Ok in H as (o & s1 & Hnet & H).
    by rewrite (IHn _ _ _ _ Hnet).
  - rewrite evaluate_network_S in H |- *.
    destruct (heap s !! a) as [n|]; [|done].
    destruct (resolve a n s) as [|t|]; [|by apply IHn|done].
    apply and_then_Ok in H as (u & s1 & Hfill & H).
    by rewrite (fill_inputs_mono _ _ _ IHe _ _ _ _ Hfill).
Qed.

Lemma evaluate_fuel_le fuel fuel' a s v s' :
  (fuel ≤ fuel')%nat → evaluate fuel a s = Ok v s' →
  evaluate fuel' a s = Ok v s'.
Proof.
  induction 1 as [|fuel' _ IH]; [done|].
  intros H. by apply evaluate_fuel_S, IH.
Qed.

Lemma evaluate_network_fuel_le fuel fuel' a s v s' :
  (fuel ≤ fuel')%nat → evaluate_network_ fuel a s = Ok v s' →
  evaluate_network_ fuel' a s = Ok v s'.
Proof.
  induction 1 as [|fuel' _ IH]; [done|].
  intros H. by apply evaluate_fuel_S, IH.
Qed.

(** ** What a write of [evaluate] leaves alone *)

Lemma wiring_lookup s s' a n :
  wiring s' = wiring s → heap s !! a = Some n →
  ∃ n', heap s' !! a = Some n' ∧ skeleton n' = skeleton n.
Proof.
  unfold wiring. intros [= Hh _ _] Ha.
  assert (Hl : (skeleton <$> heap s') !! a = Some (skeleton n))
    by (by rewrite Hh, lookup_fmap, Ha).
  rewrite lookup_fmap in Hl.
  destruct (heap s' !! a) as [n'|]; [|discriminate].
  change (Some (skeleton n') = Some (skeleton n)) in Hl.
  exists n'. split; [done|congruence].
Qed.

Lemma wiring_store s a n n' :
  heap s !! a = Some n → skeleton n' = skeleton n →
  wiring (store a n' s) = wiring s.
Proof.
  intros Ha Hsk. unfold wiring, store. simpl. do 2 f_equal.
  rewrite fmap_insert. apply insert_id. by rewrite lookup_fmap, Ha, Hsk.
Qed.

Lemma touch_wiring s s' : touch s s' → wiring s' = wiring s.
Proof.
  destruct 1 as [s a n c Ha _|s size|s buf i v _ _|s a input output].
  - by apply (wiring_store s a n).
  - unfold init_static_inputs. by destruct (static_inputs s).
  - done.
  - unfold init_static_output. by destruct (static_output s).
Qed.

Lemma touched_wiring s s' : rtc touch s s' → wiring s' = wiring s.
Proof.
  induction 1 as [|s s1 s' H1 _ IH]; [done|].
  rewrite IH. by apply touch_wiring.
Qed.

Lemma touch_static_inputs s s' buf :
  touch s s' → static_inputs s = Some buf →
  ∃ buf', static_inputs s' = Some buf' ∧ length buf' = length buf.
Proof.
  destruct 1 as [s a n c Ha _|s size|s buf0 i v Hb _|s a input output];
    intros Hbuf.
  - by exists buf.
  - unfold init_static_inputs. rewrite Hbuf. by exists buf.
  - rewrite Hbuf in Hb. injection Hb as <-.
    exists (<[i:=v]> buf). split; [done|]. apply length_insert.
  - exists buf. split; [|done].
    unfold init_static_output. by destruct (static_output s).
Qed.

Lemma touched_static_inputs s s' buf :
  rtc touch s s' → static_inputs s = Some buf →
  ∃ buf', static_inputs s' = Some buf' ∧ length buf' = length buf.
Proof.
  intros H. revert buf. induction H as [|s s1 s' H1 _ IH]; intros buf Hbuf.
  - by exists buf.
  - destruct (touch_static_inputs _ _ _ H1 Hbuf) as (b1 & Hb1 & Hl1).
    destruct (IH b1 Hb1) as (b2 & Hb2 & Hl2).
    exists b2. split; [done|]. by rewrite Hl2.
Qed.

Lemma touch_compute_log s s' :
  touch s s' → ∃ l, compute_log s' = compute_log s ++ l.
Proof.
  destruct 1 as [s a n c Ha _|s size|s buf i v _ _|s a input output].
  - exists []. by rewrite app_nil_r.
  - exists []. rewrite app_nil_r. unfold init_static_inputs.
    by destruct (static_inputs s).
  - exists []. by rewrite app_nil_r.
  - exists [(a, input)]. simpl. unfold init_static_output.
    by destruct (static_output s).
Qed.

Lemma touched_compute_log s s' :
  rtc touch s s' → ∃ l, compute_log s' = compute_log s ++ l.
Proof.
  induction 1 as [s|s s1 s' H1 _ [l2 IH]].
  - exists []. by rewrite app_nil_r.
  - destruct (touch_compute_log _ _ H1) as [l1 Hl1].
    exists (l1 ++ l2). by rewrite IH, Hl1, app_assoc.
Qed.

Lemma touch_cache_coherent s s' :
  touch s s' → coherent s → coherent s'.
Proof.
  destruct 1 as [s b m c Hb Hc|s size|s buf i v _ _|s b input output];
    intros Hs a n Ha.
  - unfold store in Ha. simpl in Ha.
    destruct (decide (b = a)) as [->|Hne].
    + rewrite lookup_insert_eq in Ha. injection Ha as <-.
      intros _ Hin. simpl in *. by apply Hc.
    + rewrite lookup_insert_ne in Ha by done. by eapply Hs.
  - apply (Hs a). revert Ha. unfold init_static_inputs.
    by destruct (static_inputs s).
  - by apply (Hs a).
  - apply (Hs a). revert Ha. unfold init_static_output.
    by destruct (static_output s).
Qed.

Lemma touched_cache_coherent s s' :
  rtc touch s s' → coherent s → coherent s'.
Proof.
  induction 1 as [|s s1 s' H1 _ IH]; [done|].
  intros Hs. apply IH. by apply (touch_cache_coherent s).
Qed.

(** ** Evaluation writes caches and the static vectors only *)

Lemma fill_inputs_touched ev ins :
  (∀ p s v s', ev p s = Ok v s' → rtc touch s s') →
  ∀ i s u s', fill_inputs ev ins i s = Ok u s' → rtc touch s s'.
Proof.
  intros Hev. induction ins as [|[p|] rest IH]; intros i s u s' H; simpl in H.
  - injection H as _ <-. apply rtc_refl.
  - apply and_then_Ok in H as (v & s1 & Hp & H).
    destruct (static_inputs s1) as [buf|] eqn:Hbuf; [|discriminate].
    case_bool_decide as Hi; [|discriminate].
    eapply rtc_trans; [by eapply Hev|].
    eapply rtc_l; [by apply (touch_write_input s1 buf i v)|].
    by eapply IH.
  - by eapply IH.
Qed.

Lemma run_network_Ok this n s v s' :
  run_network this n s = Ok v s' →
  ∃ input output rest,
    static_inputs s = Some input
    ∧ static_output (init_static_output s) = Some output
    ∧ compute (net_ n) input output = v :: rest
    ∧ s' = log_compute this input
             (set_static_output (Some (v :: rest)) (init_static_output s)).
Proof.
  unfold run_network. intros H.
  destruct (static_inputs (init_static_output s)) as [input|] eqn:Hin;
    [|discriminate].
  destruct (static_output (init_static_output s)) as [output|] eqn:Hout;
    [|discriminate].
  destruct (compute (net_ n) input output) as [|o rest] eqn:Hc; [discriminate|].
  injection H as -> <-. exists input, output, rest.
  split; [|done].
  revert Hin. unfold init_static_output. by destruct (static_output s).
Qed.

Lemma run_network_touched this n s v s' :
  run_network this n s = Ok v s' → rtc touch s s'.
Proof.
  intros (input & output & rest & _ & _ & _ & ->)%run_network_Ok.
  apply rtc_once, touch_compute.
Qed.

Lemma evaluate_touched fuel :
  (∀ a s v s', evaluate fuel a s = Ok v s' → rtc touch s s')
  ∧ (∀ a s v s', evaluate_network_ fuel a s = Ok v s' → rtc touch s s').
Proof.
  induction fuel as [|fuel [IHe IHn]]; [by split|].
  split; intros a s v s' H; simpl in H.
  - destruct (heap s !! a) as [n|] eqn:Ha; [|discriminate].
    destruct (is_dirty_ n); simpl in H; [|injection H as _ <-; apply rtc_refl].
    case_bool_decide as Hin.
    + injection H as _ <-. apply rtc_once. by apply (touch_memo s a n).
    + apply and_then_Ok in H as (o & s1 & Hnet & H).
      destruct (heap s1 !! a) as [n1|] eqn:Ha1; [|discriminate].
      injection H as _ <-.
      pose proof (IHn _ _ _ _ Hnet) as Ht.
      destruct (wiring_lookup s s1 a n (touched_wiring _ _ Ht) Ha)
        as (n1' & Ha1' & Hsk).
      rewrite Ha1 in Ha1'. injection Ha1' as <-.
      eapply rtc_r; [exact Ht|]. apply touch_memo; [done|].
      intros Hnil. injection Hsk as _ Hi _ _ _. congruence.
  - destruct (heap s !! a) as [n|] eqn:Ha; [|discriminate].
    destruct (resolve a n s) as [|t|]; [| by eapply IHn | discriminate].
    apply and_then_Ok in H as (u & s1 & Hfill & H).
    eapply rtc_l; [apply (touch_init_inputs s (length (inputs_ n)))|].
    eapply rtc_trans; [by eapply (fill_inputs_touched _ _ IHe)|].
    by eapply run_network_touched.
Qed.

Lemma evaluate_wiring fuel a s v s' :
  evaluate fuel a s = Ok v s' → wiring s' = wiring s.
Proof.
  intros H. apply touched_wiring. exact (proj1 (evaluate_touched fuel) _ _ _ _ H).
Qed.

(** ** Evaluation of a well-wired graph returns *)

Lemma resolve_wiring s s' a n n' :
  wiring s' = wiring s → skeleton n' = skeleton n →
  resolve a n' s' = resolve a n s.
Proof.
  unfold wiring, skeleton, resolve. intros [= _ -> _] [= _ _ _ -> _]. done.
Qed.

Lemma touched_is_Some s s' a :
  rtc touch s s' → is_Some (heap s !! a) → is_Some (heap s' !! a).
Proof.
  intros Ht [n Ha].
  destruct (wiring_lookup s s' a n (touched_wiring _ _ Ht) Ha) as (n' & ? & _).
  by exists n'.
Qed.

Lemma well_wired_touched rank room s s' :
  well_wired rank room s → rtc touch s s' →
  (∀ buf, static_inputs s' = Some buf → (room ≤ length buf)%nat) →
  well_wired rank room s'.
Proof.
  intros [Hst Hfirst Hin Hal Hout] Ht Hst'.
  pose proof (touched_wiring _ _ Ht) as Hw.
  assert (Hnone : static_inputs s' = None → static_inputs s = None).
  { intros Hn. destruct (static_inputs s) as [buf|] eqn:Hb; [|done].
    destruct (touched_static_inputs _ _ _ Ht Hb) as (? & ? & _). congruence. }
  assert (Hback : ∀ a n', heap s' !! a = Some n' →
            ∃ n, heap s !! a = Some n ∧ skeleton n' = skeleton n).
  { intros a n' Ha. destruct (wiring_lookup s' s a n' (eq_sym Hw) Ha)
      as (n & ? & ?). by exists n. }
  split; [done|..].
  - intros Hn a n' Ha Hne. destruct (Hback a n' Ha) as (n & Ha0 & [= _ Hi _ _ _]).
    rewrite Hi in *. by eapply Hfirst; eauto.
  - intros a n' i p Ha Hp.
    destruct (Hback a n' Ha) as (n & Ha0 & [= _ Hi _ _ _]).
    rewrite Hi in Hp. destruct (Hin a n i p Ha0 Hp) as (? & ? & ?).
    split_and!; [done| |done]. by eapply touched_is_Some.
  - intros a n' Ha. destruct (Hback a n' Ha) as (n & Ha0 & Hsk).
    rewrite (resolve_wiring s s' a n n' Hw Hsk). specialize (Hal a n Ha0).
    destruct (resolve a n s) as [|t|]; [done| |done].
    destruct Hal as (m & Hm & Hr & Hroom).
    destruct (wiring_lookup s s' t m Hw Hm) as (m' & Hm' & [= _ Hi _ _ _]).
    exists m'. split_and!; [done|done|]. rewrite Hi. auto.
  - intros a n' input output Ha.
    destruct (Hback a n' Ha) as (n & Ha0 & [= _ _ Hnet _ _]).
    rewrite Hnet. by eapply Hout.
Qed.

Lemma fill_inputs_total rank room ev ins :
  (∀ p s v s', ev p s = Ok v s' → rtc touch s s') →
  ∀ i s,
    well_wired rank room s → is_Some (static_inputs s) →
    (∀ j p, ins !! j = Some (Some p) →
       (i + j < room)%nat
       ∧ ∀ s1, well_wired rank room s1 → is_Some (static_inputs s1) →
               rtc touch s s1 →
               ∃ v s2, ev p s1 = Ok v s2 ∧ well_wired rank room s2) →
    ∃ s', fill_inputs ev ins i s = Ok tt s' ∧ well_wired rank room s'
          ∧ is_Some (static_inputs s').
Proof.
  intros Hev. induction ins as [|[p|] rest IH]; intros i s Hw Hs Hins; simpl.
  - by exists s.
  - destruct (Hins 0%nat p eq_refl) as (Hi & Hp).
    destruct (Hp s Hw Hs (rtc_refl _ _)) as (v & s1 & Hv & Hw1).
    rewrite Hv. simpl.
    pose proof (Hev _ _ _ _ Hv) as Ht.
    destruct Hs as [buf Hbuf].
    destruct (touched_static_inputs _ _ _ Ht Hbuf) as (buf1 & Hbuf1 & Hlen).
    rewrite Hbuf1.
    pose proof (ww_static _ _ _ Hw1 _ Hbuf1) as Hroom.
    rewrite bool_decide_eq_true_2 by lia.
    assert (Ht2 : rtc touch s1
              (set_static_inputs (Some (<[i:=v]> buf1)) s1)).
    { apply rtc_once, touch_write_input; [done|lia]. }
    apply IH.
    + eapply well_wired_touched; [exact Hw1|exact Ht2|].
      simpl. intros ? [= <-]. rewrite length_insert. lia.
    + by eexists.
    + intros j q Hq. destruct (Hins (S j) q Hq) as (Hj & Hq').
      split; [lia|]. intros s2 Hw2 Hs2 Ht3. apply Hq'; [done|done|].
      eapply rtc_trans; [exact Ht|]. eapply rtc_trans; [exact Ht2|done].
  - apply IH; [done|done|].
    intros j q Hq. destruct (Hins (S j) q Hq) as (Hj & Hq').
    split; [lia|]. done.
Qed.

Lemma evaluate_total rank room fuel :
  (∀ a s, well_wired rank room s → is_Some (heap s !! a) →
          (2 * rank a + 2 ≤ fuel)%nat →
          ∃ v s', evaluate fuel a s = Ok v s' ∧ well_wired rank room s')
  ∧ (∀ a s n, well_wired rank room s → heap s !! a = Some n →
          (static_inputs s = None → (room ≤ length (inputs_ n))%nat) →
          (2 * rank a + 1 ≤ fuel)%nat →
          ∃ v s', evaluate_network_ fuel a s = Ok v s'
                  ∧ well_wired rank room s').
Proof.
  induction fuel as [|fuel [IHe IHn]]; [split; intros; lia|].
  split.
  - intros a s Hw [n Ha] Hfuel. simpl. rewrite Ha.
    destruct (is_dirty_ n) eqn:Hd; simpl; [|by exists (cache_ n), s].
    case_bool_decide as Hin.
    + eexists _, _. split; [done|].
      eapply well_wired_touched; [exact Hw|by apply rtc_once, touch_memo|].
      simpl. exact (ww_static _ _ _ Hw).
    + destruct (IHn a s n Hw Ha) as (o & s1 & Hnet & Hw1); [|lia|].
      { intros Hnone. by eapply (ww_first _ _ _ Hw). }
      rewrite Hnet. simpl.
      pose proof (proj2 (evaluate_touched fuel) _ _ _ _ Hnet) as Ht.
      destruct (wiring_lookup s s1 a n (touched_wiring _ _ Ht) Ha)
        as (n1 & Ha1 & [= _ Hi _ _ _]).
      rewrite Ha1. eexists _, _. split; [done|].
      eapply well_wired_touched;
        [exact Hw1| |simpl; exact (ww_static _ _ _ Hw1)].
      apply rtc_once, touch_memo; [done|]. congruence.
  - intros a s n Hw Ha Hfirst Hfuel. simpl. rewrite Ha.
    pose proof (ww_alias _ _ _ Hw a n Ha) as Hal.
    destruct (resolve a n s) as [|t|]; [| |done].
    + set (s0 := init_static_inputs (length (inputs_ n)) s).
      assert (Ht0 : rtc touch s s0) by apply rtc_once, touch_init_inputs.
      assert (Hs0 : ∃ buf, static_inputs s0 = Some buf
                           ∧ (room ≤ length buf)%nat).
      { unfold s0, init_static_inputs.
        destruct (static_inputs s) as [buf|] eqn:Hb.
        - exists buf. split; [done|]. by eapply ww_static.
        - eexists. split; [simpl; done|]. rewrite length_replicate. auto. }
      destruct Hs0 as (buf0 & Hbuf0 & Hroom0).
      assert (Hw0 : well_wired rank room s0).
      { eapply well_wired_touched; [exact Hw|exact Ht0|]. congruence. }
      destruct (fill_inputs_total rank room (evaluate fuel) (inputs_ n)
                  (proj1 (evaluate_touched fuel)) 0%nat s0 Hw0)
        as (s1 & Hfill & Hw1 & [input Hinput]); [by eexists| |].
      { intros j p Hp. destruct (ww_inputs _ _ _ Hw a n j p Ha Hp)
          as (Hj & Hlive & Hrank).
        split; [done|]. intros s2 Hw2 _ Ht2. apply IHe; [done| |lia].
        eapply touched_is_Some; [|exact Hlive].
        eapply rtc_trans; [exact Ht0|exact Ht2]. }
      rewrite Hfill. simpl.
      unfold run_network.
      assert (Hin1 : static_inputs (init_static_output s1) = Some input).
      { unfold init_static_output. by destruct (static_output s1). }
      rewrite Hin1.
      assert (Hout1 : is_Some (static_output (init_static_output s1))).
      { unfold init_static_output.
        destruct (static_output s1) eqn:Ho; simpl; [by rewrite Ho|done]. }
      destruct Hout1 as [output Hout1]. rewrite Hout1.
      pose proof (ww_output _ _ _ Hw a n input output Ha) as Hne.
      destruct (compute (net_ n) input output) as [|o rest] eqn:Hc; [done|].
      eexists _, _. split; [done|].
      eapply well_wired_touched; [exact Hw1| |].
      * apply rtc_once. apply (touch_compute s1 a input (o :: rest)).
      * simpl. rewrite Hin1. intros ? [= <-].
        by eapply (ww_static _ _ _ Hw1).
    + destruct Hal as (m & Hm & Hrank & Hroom).
      apply (IHn t s m); [done|done|done|lia].
Qed.

(** ** The first run of a network *)

Lemma evaluate_quiet fuel s p m :
  heap s !! p = Some m → quiet m →
  ∃ s', evaluate (S fuel) p s = Ok (settled m) s'
        ∧ static_inputs s' = static_inputs s
        ∧ static_output s' = static_output s
        ∧ compute_log s' = compute_log s
        ∧ ∀ q k, heap s !! q = Some k → quiet k →
                 ∃ k', heap s' !! q = Some k' ∧ quiet k'
                       ∧ settled k' = settled k.
Proof.
  intros Hp Hq. rewrite evaluate_S, Hp. unfold settled.
  destruct (is_dirty_ m) eqn:Hd; simpl.
  - destruct Hq as [Hq|Hq]; [congruence|].
    rewrite bool_decide_eq_true_2 by done.
    eexists. split; [done|]. split_and!; try done.
    intros q k Hk Hqk. simpl. destruct (decide (p = q)) as [->|Hne].
    + rewrite lookup_insert_eq. eexists. split; [done|].
      rewrite Hp in Hk. injection Hk as <-.
      split; [by left|]. simpl. by rewrite Hd.
    + rewrite lookup_insert_ne by done. by exists k.
  - exists s. split_and!; try done. intros q k Hk Hqk. by exists k.
Qed.

Lemma overwrite_length (vals : list (option Scalar)) (buf : list Scalar) :
  length (overwrite vals buf) = length buf.
Proof.
  revert buf. induction vals as [|v vals IH]; intros [|b buf]; simpl; auto.
Qed.

Lemma fill_inputs_quiet fuel ins :
  ∀ i s buf,
    static_inputs s = Some buf → (i + length ins ≤ length buf)%nat →
    (∀ p, Some p ∈ ins → ∃ m, heap s !! p = Some m ∧ quiet m) →
    ∃ s', fill_inputs (evaluate (S fuel)) ins i s = Ok tt s'
          ∧ static_inputs s'
            = Some (take i buf
                    ++ overwrite
                         (map (λ o, (λ p, input_value s (Some p)) <$> o) ins)
                         (drop i buf))
          ∧ static_output s' = static_output s
          ∧ compute_log s' = compute_log s.
Proof.
  induction ins as [|[p|] rest IH]; intros i s buf Hbuf Hlen Hquiet;
    cbn [fill_inputs map].
  - exists s. split_and!; try done. simpl. by rewrite take_drop.
  - destruct (Hquiet p) as (m & Hp & Hq); [by left|].
    destruct (evaluate_quiet fuel s p m Hp Hq)
      as (s1 & Hev & Hin1 & Hout1 & Hlog1 & Hkeep).
    rewrite Hev. cbn [and_then]. rewrite Hin1, Hbuf.
    simpl in Hlen. rewrite bool_decide_eq_true_2 by lia.
    destruct (IH (S i) (set_static_inputs (Some (<[i:=settled m]> buf)) s1)
                (<[i:=settled m]> buf)) as (s' & Hfill & Hin' & Hout' & Hlog').
    { done. }
    { rewrite length_insert. lia. }
    { intros q Hqin. destruct (Hquiet q) as (k & Hk & Hqk); [by right|].
      destruct (Hkeep q k Hk Hqk) as (k' & Hk' & Hqk' & _). by exists k'. }
    exists s'. split; [done|]. split_and!; [|by rewrite Hout'|by rewrite Hlog'].
    rewrite Hin'. f_equal.
    assert (Hi : (i < length buf)%nat) by lia.
    destruct (lookup_lt_is_Some_2 buf i Hi) as [b Hb].
    rewrite (drop_S buf b i Hb). simpl. rewrite Hp. simpl.
    rewrite (take_S_r (<[i:=settled m]> buf) i (settled m))
      by (by apply list_lookup_insert_eq).
    rewrite take_insert_ge by lia. rewrite drop_insert_lt by lia.
    rewrite <- app_assoc. simpl. do 3 f_equal.
    apply map_ext_in. intros [q|] Hqin; [|done]. simpl.
    destruct (Hquiet q) as (k & Hk & Hqk).
    { right. by apply list_elem_of_In. }
    destruct (Hkeep q k Hk Hqk) as (k' & Hk' & _ & Hs').
    rewrite Hk, Hk'. simpl. by rewrite Hs'.
  - simpl in Hlen.
    destruct (IH (S i) s buf) as (s' & Hfill & Hin' & Hout' & Hlog').
    { done. } { lia. }
    { intros q Hqin. apply Hquiet. by right. }
    exists s'. split; [done|]. split_and!; [|done|done].
    rewrite Hin'. f_equal.
    assert (Hi : (i < length buf)%nat) by lia.
    destruct (lookup_lt_is_Some_2 buf i Hi) as [b Hb].
    rewrite (drop_S buf b i Hb). simpl.
    rewrite (take_S_r buf i b) by done.
    by rewrite <- app_assoc.
Qed.

Lemma overwrite_replicate (f : option addr → option Scalar)
    (ins : list (option addr)) (d : Scalar) :
  overwrite (map f ins) (replicate (length ins) d)
  = map (λ o, from_option id d (f o)) ins.
Proof. induction ins as [|o ins IH]; simpl; [done|]. by rewrite IH. Qed.

(** The first run of a network in the process, on a node whose present
    inputs need no network themselves: the vector given to [compute] has one
    entry for each element of [inputs_], in order, the value of a present
    input and [Scalar()] for a null one. *)
Lemma first_network_evaluation fuel s this n :
  heap s !! this = Some n → resolve this n s = Own →
  static_inputs s = None →
  (∀ p, Some p ∈ inputs_ n → ∃ m, heap s !! p = Some m ∧ quiet m) →
  (∀ input output, compute (net_ n) input output ≠ []) →
  ∃ net_output s1,
    evaluate_network_ (S (S fuel)) this s = Ok net_output s1
    ∧ compute_log s1
      = compute_log s ++ [(this, map (input_value s) (inputs_ n))].
Proof.
  intros Ha Hown Hnone Hquiet Hcompute.
  rewrite evaluate_network_S, Ha, Hown.
  unfold init_static_inputs. rewrite Hnone.
  set (buf := replicate (length (inputs_ n)) Scalar_default).
  destruct (fill_inputs_quiet fuel (inputs_ n) 0
              (set_static_inputs (Some buf) s) buf)
    as (s' & Hfill & Hin' & Hout' & Hlog'); [done| |done|].
  { unfold buf. rewrite length_replicate. lia. }
  rewrite Hfill. cbn [and_then]. unfold run_network.
  assert (Hin1 : static_inputs (init_static_output s')
                 = Some (map (input_value s) (inputs_ n))).
  { unfold init_static_output.
    assert (static_inputs s' = Some (map (input_value s) (inputs_ n)))
      as Hs'.
    { rewrite Hin'. f_equal. rewrite take_0, drop_0. simpl.
      unfold buf. rewrite overwrite_replicate.
      apply map_ext. by intros [p|]. }
    by destruct (static_output s'). }
  rewrite Hin1.
  assert (Hout1 : ∃ output, static_output (init_static_output s')
                            = Some output).
  { unfold init_static_output.
    destruct (static_output s') as [output|] eqn:Ho; simpl; eauto. }
  destruct Hout1 as [output Hout1]. rewrite Hout1.
  specialize (Hcompute (map (input_value s) (inputs_ n)) output).
  destruct (compute (net_ n) _ output) as [|o rest]; [done|].
  eexists _, _. split; [done|]. simpl. f_equal.
  simpl in Hlog'. rewrite <- Hlog'. unfold init_static_output.
  by destruct (static_output s').
Qed.

(** ** The dirty path of [evaluate] *)

(** Lines 185-188: once [evaluate_network_] has returned, the result is
    combined with the node's own value, memoised, and the node is clean. *)
Lemma evaluate_dirty_inputs fuel s this n net_output s1 :
  heap s !! this = Some n → is_dirty_ n = true → inputs_ n ≠ [] →
  evaluate_network_ fuel this s = Ok net_output s1 →
  let c := if is_residual n then scalar_add (value_ n) net_output
           else net_output in
  evaluate (S fuel) this s
  = Ok c (store this
            (mkNeuralScalar (value_ n) c false (inputs_ n) (net_ n) (name_ n)
               (is_residual n)) s1).
Proof.
  intros Ha Hd Hin Hnet. simpl. rewrite Ha, Hd. simpl.
  rewrite bool_decide_eq_false_2 by done. rewrite Hnet. simpl.
  pose proof (proj2 (evaluate_touched fuel) _ _ _ _ Hnet) as Ht.
  destruct (wiring_lookup s s1 this n (touched_wiring _ _ Ht) Ha)
    as (n1 & Ha1 & Hsk).
  rewrite Ha1. destruct n, n1. unfold skeleton in Hsk. simpl in *.
  by injection Hsk as -> -> -> -> ->.
Qed.

(** Lines 65-72 on a node that does not delegate. *)
Lemma evaluate_network_own fuel s this n net_output s1 :
  heap s !! this = Some n → resolve this n s = Own →
  evaluate_network_ fuel this s = Ok net_output s1 →
  ∃ s0 input output rest,
    fill_inputs (evaluate (pred fuel)) (inputs_ n) 0
      (init_static_inputs (length (inputs_ n)) s) = Ok tt s0
    ∧ static_inputs s0 = Some input
    ∧ static_output (init_static_output s0) = Some output
    ∧ compute (net_ n) input output = net_output :: rest
    ∧ s1 = log_compute this input
             (set_static_output (Some (net_output :: rest))
                (init_static_output s0)).
Proof.
  intros Ha Hown H. destruct fuel as [|fuel]; [discriminate|].
  simpl in H. rewrite Ha, Hown in H.
  apply and_then_Ok in H as ([] & s0 & Hfill & Hrun).
  apply run_network_Ok in Hrun as (input & output & rest & ? & ? & ? & ?).
  by exists s0, input, output, rest.
Qed.

Lemma resolve_Own this n s :
  resolve this n s = Own
  ↔ name_ n = EmptyString ∨ named_scalars_ s !! name_ n = Some this.
Proof.
  unfold resolve. case_bool_decide as Hname; [split; [by left|done]|].
  destruct (named_scalars_ s !! name_ n) as [t|] eqn:Ht.
  - case_bool_decide as Heq.
    + subst t. split; [by right|done].
    + split; [done|]. intros [?|[= ?]]; done.
  - split; [done|]. intros [?|?]; done.
Qed.

Lemma resolve_Delegate this n s t :
  resolve this n s = Delegate t
  ↔ name_ n ≠ EmptyString ∧ named_scalars_ s !! name_ n = Some t ∧ t ≠ this.
Proof.
  unfold resolve. case_bool_decide as Hname.
  { split; [done|]. by intros (? & _). }
  destruct (named_scalars_ s !! name_ n) as [t'|] eqn:Ht.
  - case_bool_decide as Heq.
    + subst t'. split; [done|]. by intros (_ & [= ->] & ?).
    + split; [by intros [= ->]|]. by intros (_ & [= ->] & _).
  - split; [done|]. by intros (_ & ? & _).
Qed.

(** C1: for a dirty node with inputs that is not an alias, whenever the
    run of its network returns, [evaluate] has called [compute] of the
    node's own network, stores in [cache_] the value plus the first output
    when [is_residual] holds and the first output alone otherwise, leaves
    the node clean and returns that cache; and on a well-wired graph, with
    enough fuel, the run does return. *)
Theorem evaluate_dirty_own s this n :
  heap s !! this = Some n → is_dirty_ n = true → inputs_ n ≠ [] →
  name_ n = EmptyString ∨ named_scalars_ s !! name_ n = Some this →
  (∀ fuel network_output0 s1,
     evaluate_network_ fuel this s = Ok network_output0 s1 →
     ∃ input output rest log,
       compute (net_ n) input output = network_output0 :: rest
       ∧ compute_log s1 = log ++ [(this, input)]
       ∧ let cache := if is_residual n
                      then scalar_add (value_ n) network_output0
                      else network_output0 in
         evaluate (S fuel) this s
         = Ok cache
             (store this
                (mkNeuralScalar (value_ n) cache false (inputs_ n) (net_ n)
                   (name_ n) (is_residual n)) s1))
  ∧ (∀ rank room fuel,
       well_wired rank room s → (2 * rank this + 1 ≤ fuel)%nat →
       ∃ network_output0 s1,
         evaluate_network_ fuel this s = Ok network_output0 s1).
Proof.
  intros Ha Hd Hin Hown%resolve_Own. split.
  - intros fuel o s1 Hnet.
    destruct (evaluate_network_own _ _ _ _ _ _ Ha Hown Hnet)
      as (s0 & input & output & rest & _ & _ & _ & Hc & ->).
    exists input, output, rest. eexists.
    split_and!; [exact Hc|simpl; reflexivity|].
    by apply evaluate_dirty_inputs.
  - intros rank room fuel Hw Hfuel.
    destruct (proj2 (evaluate_total rank room fuel) this s n Hw Ha)
      as (o & s1 & Hnet & _); [|lia|by exists o, s1].
    intros Hnone. by eapply (ww_first _ _ _ Hw).
Qed.

(** C3: on a clean node [evaluate] returns [cache_] and leaves the whole
    state, the log of [compute] calls included, as it was; hence a second
    call returns the same scalar and again changes nothing. *)
Theorem evaluate_clean s this n fuel :
  heap s !! this = Some n → is_dirty_ n = false →
  evaluate (S fuel) this s = Ok (cache_ n) s
  ∧ and_then (evaluate (S fuel) this s) (λ _ s1, evaluate (S fuel) this s1)
    = Ok (cache_ n) s.
Proof.
  intros Ha Hd.
  assert (H1 : evaluate (S fuel) this s = Ok (cache_ n) s).
  { simpl. by rewrite Ha, Hd. }
  split; [exact H1|]. rewrite H1. simpl and_then. exact H1.
Qed.

(** ** A clean node without inputs caches its value, in every reachable
    state *)

Lemma with_node_Ok {A : Type} this s
    (k : NeuralScalar Scalar Net → outcome Scalar Net A) b s' :
  with_node this s k = Ok b s' ↔ ∃ n, heap s !! this = Some n ∧ k n = Ok b s'.
Proof.
  unfold with_node. split.
  - destruct (heap s !! this) as [n|]; [|done]. intros Hk. by exists n.
  - intros (n & -> & Hk). exact Hk.
Qed.

Lemma coherent_store s a n :
  coherent s → cache_coherent n → coherent (store a n s).
Proof.
  intros Hs Hn b m. unfold store. simpl.
  destruct (decide (a = b)) as [->|Hne].
  - rewrite lookup_insert_eq. by intros [= <-].
  - rewrite lookup_insert_ne by done. apply Hs.
Qed.

Lemma coherent_dirty n : is_dirty_ n = true → cache_coherent n.
Proof. unfold cache_coherent. intros ->. done. Qed.

Lemma evaluate_coherent fuel a s v s' :
  evaluate fuel a s = Ok v s' → coherent s → coherent s'.
Proof.
  intros H. apply touched_cache_coherent.
  exact (proj1 (evaluate_touched fuel) _ _ _ _ H).
Qed.

Lemma push_blueprint_inputs_fields names n s :
  match push_blueprint_inputs names n s with
  | inl (_, m) | inr m =>
      value_ m = value_ n ∧ cache_ m = cache_ n ∧ is_dirty_ m = is_dirty_ n
      ∧ net_ m = net_ n ∧ name_ m = name_ n ∧ is_residual m = is_residual n
      ∧ ∃ more, inputs_ m = inputs_ n ++ more
  end.
Proof.
  revert n. induction names as [|x rest IH]; intros n; simpl.
  - split_and!; try done. exists []. by rewrite app_nil_r.
  - destruct (retrieve x s) as [p|].
    + specialize (IH (set_inputs (inputs_ n ++ [Some p]) n)).
      destruct (push_blueprint_inputs rest _ s) as [[? m]|m];
        destruct IH as (? & ? & ? & ? & ? & ? & more & Hm);
        (split_and!; try done; exists (Some p :: more);
         by rewrite Hm; simpl; rewrite <- app_assoc).
    + split_and!; try done. exists []. by rewrite app_nil_r.
Qed.

Lemma api_step_coherent s s' : api_step s s' → coherent s → coherent s'.
Proof.
  destruct 1 as [s a n _ Hn|s a b n _ Hb|s a|s fuel a v s' He
    |s fuel a rhs s' Ho|s a rhs s' Ho|s a rhs s' Ho|s op fuel a operand s' _ Ho
    |s a scalar activation s' Ho|s a n init_method Ha|s a n Ha|s a n w Ha
    |s a n r Ha|s a name s' Ho|s scalar_name input_names net]; intros Hs.
  - apply coherent_store; [done|]. apply coherent_dirty. by destruct Hn.
  - apply coherent_store; [done|]. by apply (Hs b).
  - intros b m. unfold destroy. simpl. intros Hb%lookup_delete_Some.
    apply (Hs b), Hb.
  - by eapply evaluate_coherent.
  - unfold operator_assign in Ho.
    apply and_then_Ok in Ho as (v & s1 & He & Ho).
    apply with_node_Ok in Ho as (n & Ha & [= <-]).
    apply coherent_store; [by eapply evaluate_coherent|by apply coherent_dirty].
  - apply with_node_Ok in Ho as (n & Ha & [= <-]).
    apply coherent_store; [done|by apply coherent_dirty].
  - apply with_node_Ok in Ho as (n & Ha & [= <-]).
    apply coherent_store; [done|by apply coherent_dirty].
  - unfold compound_assign in Ho.
    apply and_then_Ok in Ho as (v & s1 & He & Ho).
    apply with_node_Ok in Ho as (n & Ha & [= <-]).
    apply coherent_store; [by eapply evaluate_coherent|by apply coherent_dirty].
  - apply with_node_Ok in Ho as (n & Ha & Ho). cbv zeta in Ho.
    destruct (bool_decide (INT_MAX ≤ _)) in Ho; [done|]. injection Ho as <-.
    apply coherent_store; [done|].
    intros _ Hin. exfalso. revert Hin. unfold set_dirty, initialize.
    repeat case_bool_decide; simpl; by destruct (inputs_ n).
  - apply coherent_store; [done|]. exact (Hs a n Ha).
  - apply coherent_store; [done|]. unfold set_dirty.
    case_bool_decide; [by apply coherent_dirty|exact (Hs a n Ha)].
  - apply coherent_store; [done|]. exact (Hs a n Ha).
  - apply coherent_store; [done|]. exact (Hs a n Ha).
  - unfold assign in Ho. destruct (heap s !! a) as [n|] eqn:Ha; [|done].
    pose proof (Hs a n Ha) as Hn.
    destruct (blueprints_ s !! name) as [bp|].
    + pose proof (push_blueprint_inputs_fields (input_names bp)
                    (set_name name n) s) as Hp.
      destruct (push_blueprint_inputs _ _ s) as [[x m]|m]; [done|].
      injection Ho as <-.
      destruct Hp as (Hv & Hc & Hd & _ & _ & _ & more & Hm).
      intros b k. simpl.
      destruct (decide (a = b)) as [->|Hne].
      * rewrite lookup_insert_eq. intros [= <-]. unfold cache_coherent.
        simpl in *. rewrite Hv, Hc, Hd, Hm.
        intros Hdirty [Hnil _]%app_eq_nil. by apply Hn.
      * rewrite lookup_insert_ne by done. apply Hs.
    + injection Ho as <-. intros b k. simpl.
      destruct (decide (a = b)) as [->|Hne].
      * rewrite lookup_insert_eq. intros [= <-]. exact Hn.
      * rewrite lookup_insert_ne by done. apply Hs.
  - exact Hs.
Qed.

Lemma reachable_coherent s : reachable s → coherent s.
Proof.
  unfold reachable. intros H. apply (rtc_ind_r (R := api_step) coherent initial_state);
    [|clear s H|exact H].
  - intros a n. unfold initial_state. simpl. by rewrite lookup_empty.
  - intros s1 s2 _ H12 IH. by eapply api_step_coherent.
Qed.

(** ** A name that a node carries is registered, in every reachable state:
    line 62 never meets a null target *)

Lemma names_registered_wiring s s' :
  wiring s' = wiring s → names_registered s → names_registered s'.
Proof.
  intros Hw Hs a n' Ha Hname.
  destruct (wiring_lookup s' s a n' (eq_sym Hw) Ha) as (n & Ha0 & Hsk).
  injection Hsk as _ _ _ Hn _. injection Hw as _ Hr _.
  rewrite Hr, <- Hn. apply (Hs a n Ha0). by rewrite Hn.
Qed.

Lemma names_registered_store s a n n' :
  heap s !! a = Some n → name_ n' = name_ n →
  names_registered s → names_registered (store a n' s).
Proof.
  intros Ha Hn Hs b m. unfold store. simpl.
  destruct (decide (a = b)) as [->|Hne].
  - rewrite lookup_insert_eq. intros [= <-]. rewrite Hn. by apply (Hs b).
  - rewrite lookup_insert_ne by done. apply Hs.
Qed.

Lemma names_registered_assigned s a n name :
  name_ n = name → names_registered s →
  names_registered
    (set_named_scalars (<[name:=a]> (named_scalars_ s)) (store a n s)).
Proof.
  intros Hn Hs b m. simpl.
  destruct (decide (a = b)) as [->|Hne].
  - rewrite lookup_insert_eq. intros [= <-] _. rewrite Hn.
    rewrite lookup_insert_eq. by eexists.
  - rewrite lookup_insert_ne by done. intros Hb Hname.
    destruct (decide (name = name_ m)) as [->|Hne'].
    + rewrite lookup_insert_eq. by eexists.
    + rewrite lookup_insert_ne by done. by apply (Hs b).
Qed.

Lemma api_step_names_registered s s' :
  api_step s s' → names_registered s → names_registered s'.
Proof.
  destruct 1 as [s a n Hfresh Hn|s a b n Hfresh Hb|s a|s fuel a v s' He
    |s fuel a rhs s' Ho|s a rhs s' Ho|s a rhs s' Ho|s op fuel a operand s' _ Ho
    |s a scalar activation s' Ho|s a n init_method Ha|s a n Ha|s a n w Ha
    |s a n r Ha|s a name s' Ho|s scalar_name input_names net]; intros Hs.
  - intros b m. unfold store. simpl. destruct (decide (a = b)) as [->|Hne].
    + rewrite lookup_insert_eq. intros [= <-]. by destruct Hn.
    + rewrite lookup_insert_ne by done. apply Hs.
  - intros c m. unfold store. simpl. destruct (decide (a = c)) as [->|Hne].
    + rewrite lookup_insert_eq. intros [= <-]. by apply (Hs b).
    + rewrite lookup_insert_ne by done. apply Hs.
  - intros b m. unfold destroy. simpl. intros Hb%lookup_delete_Some.
    apply (Hs b), Hb.
  - eapply names_registered_wiring; [|exact Hs]. by eapply evaluate_wiring.
  - unfold operator_assign in Ho.
    apply and_then_Ok in Ho as (v & s1 & He & Ho).
    apply with_node_Ok in Ho as (n & Ha & [= <-]).
    eapply names_registered_store; [done|done|].
    eapply names_registered_wiring; [|exact Hs]. by eapply evaluate_wiring.
  - apply with_node_Ok in Ho as (n & Ha & [= <-]).
    by eapply names_registered_store.
  - apply with_node_Ok in Ho as (n & Ha & [= <-]).
    by eapply names_registered_store.
  - unfold compound_assign in Ho.
    apply and_then_Ok in Ho as (v & s1 & He & Ho).
    apply with_node_Ok in Ho as (n & Ha & [= <-]).
    eapply names_registered_store; [done|done|].
    eapply names_registered_wiring; [|exact Hs]. by eapply evaluate_wiring.
  - apply with_node_Ok in Ho as (n & Ha & Ho). cbv zeta in Ho.
    destruct (bool_decide (INT_MAX ≤ _)) in Ho; [done|]. injection Ho as <-.
    eapply names_registered_store; [done| |done].
    unfold set_dirty, initialize. by repeat case_bool_decide.
  - by eapply names_registered_store.
  - eapply names_registered_store; [done| |done].
    unfold set_dirty. by case_bool_decide.
  - by eapply names_registered_store.
  - by eapply names_registered_store.
  - unfold assign in Ho. destruct (heap s !! a) as [n|] eqn:Ha; [|done].
    destruct (blueprints_ s !! name) as [bp|].
    + pose proof (push_blueprint_inputs_fields (input_names bp)
                    (set_name name n) s) as Hp.
      destruct (push_blueprint_inputs _ _ s) as [[x m]|m]; [done|].
      injection Ho as <-. destruct Hp as (_ & _ & _ & _ & Hname & _).
      by apply names_registered_assigned.
    + injection Ho as <-. by apply names_registered_assigned.
  - exact Hs.
Qed.

Lemma reachable_names_registered s : reachable s → names_registered s.
Proof.
  unfold reachable. intros H.
  apply (rtc_ind_r (R := api_step) names_registered initial_state);
    [|clear s H|exact H].
  - intros a n. unfold initial_state. simpl. by rewrite lookup_empty.
  - intros s1 s2 _ H12 IH. by eapply api_step_names_registered.
Qed.

Lemma reachable_resolve s a n :
  reachable s → heap s !! a = Some n → resolve a n s ≠ NullTarget.
Proof.
  intros Hr Ha. unfold resolve. case_bool_decide as Hname; [done|].
  destruct (reachable_names_registered s Hr a n Ha Hname) as [t ->].
  by case_bool_decide.
Qed.

(** C2: in every state the public interface can bring about, [evaluate] on a
    node without inputs returns its stored value, whatever [is_residual] is,
    and logs no call of [compute]; a node built from a literal [v], or by
    default, evaluates to [v], or to zero. *)
Theorem evaluate_no_inputs s this n fuel :
  reachable s → heap s !! this = Some n → inputs_ n = [] →
  (∃ s', evaluate (S fuel) this s = Ok (value_ n) s'
         ∧ compute_log s' = compute_log s ∧ wiring s' = wiring s)
  ∧ (∀ junk v r a,
       ∃ s', evaluate (S fuel) a
               (store a (set_is_residual r (NeuralScalar_of_value junk v)) s)
             = Ok v s'
             ∧ compute_log s' = compute_log s)
  ∧ (∀ junk r a,
       ∃ s', evaluate (S fuel) a
               (store a (set_is_residual r (NeuralScalar_default junk)) s)
             = Ok zero s'
             ∧ compute_log s' = compute_log s).
Proof.
  intros Hr Ha Hin. split_and!.
  - pose proof (reachable_coherent s Hr this n Ha) as Hc.
    simpl. rewrite Ha. destruct (is_dirty_ n) eqn:Hd; simpl.
    + rewrite bool_decide_eq_true_2 by done. eexists. split; [done|].
      split; [done|]. by apply (wiring_store s this n).
    + exists s. by rewrite (Hc Hd Hin).
  - intros junk v r a. simpl. rewrite lookup_insert_eq. simpl.
    eexists. split; [done|]. done.
  - intros junk r a. simpl. rewrite lookup_insert_eq. simpl.
    eexists. split; [done|]. done.
Qed.

(** ** Aliases *)

(** Whatever [evaluate_network_] returns is the output of the network of
    the node [r] at the end of the chain of registrations that starts at
    [t], run on the static vector filled from the inputs of [r]. *)
Lemma evaluate_network_chain fuel t s net_output s1 :
  evaluate_network_ fuel t s = Ok net_output s1 →
  ∃ r nr fuel0 s0 input output rest,
    rtc (delegates s) t r
    ∧ heap s !! r = Some nr ∧ resolve r nr s = Own
    ∧ fill_inputs (evaluate fuel0) (inputs_ nr) 0
        (init_static_inputs (length (inputs_ nr)) s) = Ok tt s0
    ∧ static_inputs s0 = Some input
    ∧ compute (net_ nr) input output = net_output :: rest
    ∧ compute_log s1 = compute_log s0 ++ [(r, input)].
Proof.
  revert t. induction fuel as [|fuel IH]; intros t H; [discriminate|].
  pose proof H as H'. rewrite evaluate_network_S in H'.
  destruct (heap s !! t) as [nt|] eqn:Ht; [|discriminate].
  destruct (resolve t nt s) as [|u|] eqn:Hres; [| |discriminate].
  - destruct (evaluate_network_own _ _ _ _ _ _ Ht Hres H)
      as (s0 & input & output & rest & Hfill & Hin & _ & Hc & ->).
    exists t, nt, fuel, s0, input, output, rest.
    split_and!; [apply rtc_refl|done..|].
    simpl. f_equal. unfold init_static_output.
    by destruct (static_output s0).
  - destruct (IH u H')
      as (r & nr & fuel0 & s0 & input & output & rest & Hchain & Hrest).
    exists r, nr, fuel0, s0, input, output, rest.
    split; [|exact Hrest].
    eapply rtc_l; [|exact Hchain]. by exists nt.
Qed.

(** C4, amended: a dirty node with inputs whose name is registered to
    another node [t] takes what [evaluate_network_] of [t] returns, the
    registry being looked up at this evaluation: that is the output of the
    network of the node at the end of the chain of registrations from [t]
    ([t] itself when [t] is unnamed or holds its own name, otherwise the
    node that the name of [t] is registered to, and so on), run on that
    node's inputs.  It combines that output with its OWN value according to
    its own [is_residual], stores the result in its own cache and becomes
    clean; the next [evaluate] returns that cache and changes nothing,
    whatever the registry says by then.  On a well-wired graph, with enough
    fuel, the run returns. *)
Theorem evaluate_dirty_alias s this n t :
  heap s !! this = Some n → is_dirty_ n = true → inputs_ n ≠ [] →
  name_ n ≠ EmptyString → named_scalars_ s !! name_ n = Some t → t ≠ this →
  (∀ fuel net_output s1,
     evaluate_network_ fuel t s = Ok net_output s1 →
     let cache := if is_residual n then scalar_add (value_ n) net_output
                  else net_output in
     let s' := store this
                 (mkNeuralScalar (value_ n) cache false (inputs_ n) (net_ n)
                    (name_ n) (is_residual n)) s1 in
     evaluate (S (S fuel)) this s = Ok cache s'
     ∧ (∀ fuel' s'',
          heap s'' !! this = heap s' !! this →
          evaluate (S fuel') this s'' = Ok cache s'')
     ∧ ∃ r nr fuel0 s0 input output rest,
         rtc (delegates s) t r
         ∧ heap s !! r = Some nr ∧ resolve r nr s = Own
         ∧ fill_inputs (evaluate fuel0) (inputs_ nr) 0
             (init_static_inputs (length (inputs_ nr)) s) = Ok tt s0
         ∧ static_inputs s0 = Some input
         ∧ compute (net_ nr) input output = net_output :: rest
         ∧ compute_log s1 = compute_log s0 ++ [(r, input)])
  ∧ (∀ rank room fuel,
       well_wired rank room s → (2 * rank this ≤ fuel)%nat →
       ∃ net_output s1, evaluate_network_ fuel t s = Ok net_output s1).
Proof.
  intros Ha Hd Hin Hname Ht Hne.
  assert (Hres : resolve this n s = Delegate t) by by apply resolve_Delegate.
  split.
  - intros fuel o s1 Hnet. cbv zeta. split_and!.
    + apply evaluate_dirty_inputs; [done..|]. simpl. by rewrite Ha, Hres.
    + intros fuel' s'' Hsame. simpl in *.
      by rewrite Hsame, lookup_insert_eq.
    + by eapply evaluate_network_chain.
  - intros rank room fuel Hw Hfuel.
    pose proof (ww_alias _ _ _ Hw this n Ha) as Hal. rewrite Hres in Hal.
    destruct Hal as (m & Hm & Hrank & Hroom).
    destruct (proj2 (evaluate_total rank room fuel) t s m Hw Hm)
      as (o & s1 & Hnet & _); [done|lia|by exists o, s1].
Qed.

(** ** [assign] *)

Lemma push_blueprint_inputs_resolved names n s :
  Forall (λ x, is_Some (retrieve x s)) names →
  push_blueprint_inputs names n s
  = inr (set_inputs (inputs_ n ++ map (λ x, retrieve x s) names) n).
Proof.
  intros H. revert n. induction H as [|x rest [p Hp] _ IH]; intros n; simpl.
  - rewrite app_nil_r. by destruct n.
  - rewrite Hp, IH. simpl. by rewrite <- app_assoc.
Qed.

Lemma push_blueprint_inputs_unresolved pre x post n s :
  Forall (λ y, is_Some (retrieve y s)) pre → retrieve x s = None →
  push_blueprint_inputs (pre ++ x :: post) n s
  = inl (x, set_inputs (inputs_ n ++ map (λ y, retrieve y s) pre) n).
Proof.
  intros H Hx. revert n. induction H as [|y rest [p Hp] _ IH]; intros n; simpl.
  - rewrite Hx, app_nil_r. by destruct n.
  - rewrite Hp, IH. simpl. by rewrite <- app_assoc.
Qed.

(** C5, amended: [assign] sets the name; without a blueprint it registers
    the node and changes nothing else; with a blueprint whose input names
    are all registered it APPENDS the nodes registered under these names, in
    order, to the inputs the node already has, replaces the network by the
    blueprint's and registers the node, overwriting the previous holder; at
    the first input name that is not registered it ends the process with
    the diagnostic, the registry being as before the call. *)
Theorem assign_spec s this n name :
  heap s !! this = Some n →
  (blueprints_ s !! name = None →
   assign this name s
   = Assigned (set_named_scalars (<[name:=this]> (named_scalars_ s))
                 (store this (set_name name n) s)))
  ∧ (∀ blueprint,
       blueprints_ s !! name = Some blueprint →
       Forall (λ x, is_Some (retrieve x s)) (input_names blueprint) →
       assign this name s
       = Assigned
           (set_named_scalars (<[name:=this]> (named_scalars_ s))
              (store this
                 (mkNeuralScalar (value_ n) (cache_ n) (is_dirty_ n)
                    (inputs_ n
                     ++ map (λ x, retrieve x s) (input_names blueprint))
                    (net blueprint) name (is_residual n)) s)))
  ∧ (∀ blueprint pre x post,
       blueprints_ s !! name = Some blueprint →
       input_names blueprint = pre ++ x :: post →
       Forall (λ y, is_Some (retrieve y s)) pre → retrieve x s = None →
       ∃ s', assign this name s = Aborted (diagnostic x) s'
             ∧ named_scalars_ s' = named_scalars_ s).
Proof.
  intros Ha. unfold assign. rewrite Ha. split_and!.
  - by intros ->.
  - intros bp -> Hall. by rewrite push_blueprint_inputs_resolved.
  - intros bp pre x post -> -> Hpre Hx.
    rewrite push_blueprint_inputs_unresolved by done.
    eexists. split; [done|]. done.
Qed.

(** C10: whether [assign] returns or ends the process, the node's value,
    cache and dirty flag are as before; a node that was clean is clean, and
    [evaluate] goes on returning the old cache, also after a blueprint has
    changed its inputs and network. *)
Theorem assign_keeps_cache s this n name :
  heap s !! this = Some n →
  ∃ s' n',
    (assign this name s = Assigned s'
     ∨ ∃ message, assign this name s = Aborted message s')
    ∧ heap s' !! this = Some n'
    ∧ value_ n' = value_ n ∧ cache_ n' = cache_ n
    ∧ is_dirty_ n' = is_dirty_ n
    ∧ (is_dirty_ n = false →
       ∀ fuel, evaluate (S fuel) this s' = Ok (cache_ n) s').
Proof.
  intros Ha. unfold assign. rewrite Ha.
  assert (Hclean : ∀ s' n', heap s' !! this = Some n' →
            cache_ n' = cache_ n → is_dirty_ n' = is_dirty_ n →
            is_dirty_ n = false →
            ∀ fuel, evaluate (S fuel) this s' = Ok (cache_ n) s').
  { intros s' n' Ha' Hc Hd Hd0 fuel. simpl. rewrite Ha', Hd, Hd0. simpl.
    by rewrite Hc. }
  destruct (blueprints_ s !! name) as [bp|].
  - pose proof (push_blueprint_inputs_fields (input_names bp)
                  (set_name name n) s) as Hp.
    destruct (push_blueprint_inputs _ _ s) as [[x m]|m];
      destruct Hp as (Hv & Hc & Hd & _); simpl in Hv, Hc, Hd.
    + eexists _, m. split; [right; by eexists|].
      split; [apply lookup_insert_eq|]. split_and!; try done.
      eapply Hclean; [apply lookup_insert_eq|done|done].
    + eexists _, _. split; [by left|].
      split; [apply lookup_insert_eq|]. split_and!; try done.
      eapply Hclean; [apply lookup_insert_eq|done|done].
  - eexists _, _. split; [by left|].
    split; [apply lookup_insert_eq|]. split_and!; try done.
    eapply Hclean; [apply lookup_insert_eq|done|done].
Qed.

(** ** [connect] *)

Section Connect.

(** What the network's own members are expected to do with the declared
    input dimension. *)
Hypothesis input_dim_set_input_dim :
  ∀ d (w : Net), input_dim (set_input_dim d w) = d.
Hypothesis input_dim_add_linear_layer :
  ∀ activation units (w : Net),
    input_dim (add_linear_layer activation units w) = input_dim w.
Hypothesis input_dim_net_initialize :
  ∀ init_method (w : Net), input_dim (net_initialize init_method w) = input_dim w.

(** C7: [connect] appends the node to [inputs_], sets the network's input
    dimension to one more than it was, adds one linear layer of width 1 with
    the given activation when [num_layers()] is 1 (no layer after the input
    layer yet), initialises the network again, and calls [set_dirty], which
    sets the dirty flag when the output dimension is not zero and does
    nothing when it is zero. *)
Theorem connect_spec s this n scalar activation :
  heap s !! this = Some n → input_dim (net_ n) < INT_MAX →
  let w1 := set_input_dim (input_dim (net_ n) + 1) (net_ n) in
  let w2 := if bool_decide (num_layers w1 = 1)
            then add_linear_layer activation 1 w1 else w1 in
  let w3 := net_initialize NN_INIT_XAVIER w2 in
  connect this scalar activation s
  = Ok tt (store this
             (mkNeuralScalar (value_ n) (cache_ n)
                (if bool_decide (output_dim w3 ≠ 0) then true
                 else is_dirty_ n)
                (inputs_ n ++ [scalar]) w3 (name_ n) (is_residual n)) s)
  ∧ input_dim w3 = input_dim (net_ n) + 1
  ∧ (∀ m : NeuralScalar Scalar Net,
       (output_dim (net_ m) ≠ 0 → set_dirty m = set_is_dirty true m)
       ∧ (output_dim (net_ m) = 0 → set_dirty m = m)).
Proof.
  intros Ha Hdim. cbv zeta. split_and!.
  - unfold connect, with_node. rewrite Ha. cbv zeta. simpl.
    rewrite bool_decide_eq_false_2 by lia.
    unfold set_dirty, initialize.
    destruct (bool_decide (num_layers _ = 1)); simpl;
      by destruct (bool_decide (output_dim _ ≠ 0)).
  - rewrite input_dim_net_initialize.
    destruct (bool_decide (num_layers _ = 1)).
    + by rewrite input_dim_add_linear_layer, input_dim_set_input_dim.
    + by rewrite input_dim_set_input_dim.
  - intros m. unfold set_dirty. split; intros Hm.
    + by rewrite bool_decide_eq_true_2.
    + by rewrite bool_decide_eq_false_2 by (by intros []).
Qed.

End Connect.

(** ** Operators and assignments *)

Lemma evaluate_both_Ok order fuel lhs rhs s x y s2 :
  evaluate_both order fuel lhs rhs s = Ok (x, y) s2
  ↔ match order with
    | LhsFirst => ∃ s1, evaluate fuel lhs s = Ok x s1
                        ∧ evaluate fuel rhs s1 = Ok y s2
    | RhsFirst => ∃ s1, evaluate fuel rhs s = Ok y s1
                        ∧ evaluate fuel lhs s1 = Ok x s2
    end.
Proof.
  unfold evaluate_both. destruct order; rewrite and_then_Ok.
  - split.
    + intros (x' & s1 & H1 & (y' & s2' & H2 & [= <- <- <-])%and_then_Ok).
      by exists s1.
    + intros (s1 & H1 & H2). exists x, s1. split; [done|].
      apply and_then_Ok. by exists y, s2.
  - split.
    + intros (y' & s1 & H1 & (x' & s2' & H2 & [= <- <- <-])%and_then_Ok).
      by exists s1.
    + intros (s1 & H1 & H2). exists y, s1. split; [done|].
      apply and_then_Ok. by exists x, s2.
Qed.

Lemma evaluate_both_total rank room order fuel lhs rhs s :
  well_wired rank room s →
  is_Some (heap s !! lhs) → is_Some (heap s !! rhs) →
  (2 * rank lhs + 2 ≤ fuel)%nat → (2 * rank rhs + 2 ≤ fuel)%nat →
  ∃ x y s2, evaluate_both order fuel lhs rhs s = Ok (x, y) s2
            ∧ wiring s2 = wiring s.
Proof.
  intros Hw Hl Hr Hfl Hfr.
  pose proof (proj1 (evaluate_total rank room fuel)) as Htot.
  pose proof (proj1 (evaluate_touched fuel)) as Htouch.
  destruct order.
  - destruct (Htot lhs s Hw Hl Hfl) as (x & s1 & H1 & Hw1).
    pose proof (Htouch _ _ _ _ H1) as Ht1.
    destruct (Htot rhs s1 Hw1 (touched_is_Some _ _ _ Ht1 Hr) Hfr)
      as (y & s2 & H2 & _).
    exists x, y, s2. split; [apply evaluate_both_Ok; by exists s1|].
    rewrite (evaluate_wiring _ _ _ _ _ H2). by eapply evaluate_wiring.
  - destruct (Htot rhs s Hw Hr Hfr) as (y & s1 & H1 & Hw1).
    pose proof (Htouch _ _ _ _ H1) as Ht1.
    destruct (Htot lhs s1 Hw1 (touched_is_Some _ _ _ Ht1 Hl) Hfl)
      as (x & s2 & H2 & _).
    exists x, y, s2. split; [apply evaluate_both_Ok; by exists s1|].
    rewrite (evaluate_wiring _ _ _ _ _ H2). by eapply evaluate_wiring.
Qed.

(** C8: with [x] and [y] the results of [lhs.evaluate()] and
    [rhs.evaluate()], run one after the other in the order the compiler
    chose, the four arithmetic operators return a fresh node of value
    [x op y] without inputs, with a default network and no name, the
    comparisons return [x rel y], unary minus returns the node of the
    negated value, and the graph is as before.  The fresh node evaluates to
    its value in whatever state it is placed, so whatever happens to the
    operands later.  On a well-wired graph, with enough fuel, both operands
    do evaluate. *)
Theorem operators_collapse junk order fuel lhs rhs s :
  (∀ x y, scalar_mul x y = scalar_mul y x) →
  let plain := NeuralScalar_of_value junk in
  (∀ x y s2,
     match order with
     | LhsFirst => ∃ s1, evaluate fuel lhs s = Ok x s1
                         ∧ evaluate fuel rhs s1 = Ok y s2
     | RhsFirst => ∃ s1, evaluate fuel rhs s = Ok y s1
                         ∧ evaluate fuel lhs s1 = Ok x s2
     end →
     wiring s2 = wiring s
     ∧ operator_add junk order fuel lhs rhs s = Ok (plain (scalar_add x y)) s2
     ∧ operator_sub junk order fuel lhs rhs s = Ok (plain (scalar_sub x y)) s2
     ∧ operator_mul junk order fuel lhs rhs s = Ok (plain (scalar_mul x y)) s2
     ∧ operator_div junk order fuel lhs rhs s = Ok (plain (scalar_div x y)) s2
     ∧ operator_lt order fuel lhs rhs s = Ok (scalar_lt x y) s2
     ∧ operator_le order fuel lhs rhs s = Ok (scalar_le x y) s2
     ∧ operator_gt order fuel lhs rhs s = Ok (scalar_gt x y) s2
     ∧ operator_eq order fuel lhs rhs s = Ok (scalar_eq x y) s2
     ∧ operator_ne order fuel lhs rhs s = Ok (scalar_ne x y) s2)
  ∧ (∀ y s1,
       evaluate fuel rhs s = Ok y s1 →
       wiring s1 = wiring s
       ∧ operator_neg junk fuel rhs s = Ok (plain (scalar_neg y)) s1)
  ∧ (∀ rank room,
       well_wired rank room s →
       is_Some (heap s !! lhs) → is_Some (heap s !! rhs) →
       (2 * rank lhs + 2 ≤ fuel)%nat → (2 * rank rhs + 2 ≤ fuel)%nat →
       ∃ x y s2, evaluate_both order fuel lhs rhs s = Ok (x, y) s2)
  ∧ (∀ v,
       inputs_ (plain v) = [] ∧ net_ (plain v) = net_default
       ∧ name_ (plain v) = EmptyString
       ∧ ∀ c s3 fuel',
           heap s3 !! c = Some (plain v) →
           ∃ s4, evaluate (S fuel') c s3 = Ok v s4
                 ∧ compute_log s4 = compute_log s3).
Proof.
  intros Hcomm plain. split_and!.
  - intros x y s2 Hboth. split.
    + destruct order; destruct Hboth as (s1 & H1 & H2);
        rewrite (evaluate_wiring _ _ _ _ _ H2); by eapply evaluate_wiring.
    + apply evaluate_both_Ok in Hboth.
      unfold operator_add, operator_sub, operator_mul, operator_div,
        binary_operator, operator_lt, operator_le, operator_gt, operator_eq,
        operator_ne, comparison.
      rewrite Hboth. simpl. rewrite (Hcomm y x). done.
  - intros y s1 H1. split; [by eapply evaluate_wiring|].
    unfold operator_neg. by rewrite H1.
  - intros rank room Hw Hl Hr Hfl Hfr.
    destruct (evaluate_both_total rank room order fuel lhs rhs s Hw Hl Hr
                Hfl Hfr) as (x & y & s2 & Hboth & _).
    by exists x, y, s2.
  - intros v. split_and!; try done.
    intros c s3 fuel' Hc. simpl. rewrite Hc. simpl. by eexists.
Qed.

(** C9: assignment from a scalar or a double writes [value_] and sets the
    dirty flag; assignment from a node and the four compound assignments
    evaluate the operand and then write only [value_] (the operand's value,
    or the old value combined with it) and the dirty flag of the receiver,
    in the state that the operand's evaluation left.  In all of them the
    receiver keeps its inputs, network, name and [is_residual].  On a
    well-wired graph, with enough fuel, the operand does evaluate. *)
Theorem assignment_frame fuel this rhs s n :
  heap s !! this = Some n →
  let written value cache :=
    mkNeuralScalar value cache true (inputs_ n) (net_ n) (name_ n)
      (is_residual n) in
  (∀ v, operator_assign_scalar this v s
        = Ok tt (store this (written v (cache_ n)) s))
  ∧ (∀ d, operator_assign_double this d s
          = Ok tt (store this (written (Scalar_of_double d) (cache_ n)) s))
  ∧ (∀ v s1,
       evaluate fuel rhs s = Ok v s1 →
       ∃ n1,
         heap s1 !! this = Some n1 ∧ skeleton n1 = skeleton n
         ∧ operator_assign fuel this rhs s
           = Ok tt (store this (written v (cache_ n1)) s1)
         ∧ operator_add_assign fuel this rhs s
           = Ok tt (store this
                      (written (scalar_add (value_ n) v) (cache_ n1)) s1)
         ∧ operator_sub_assign fuel this rhs s
           = Ok tt (store this
                      (written (scalar_sub (value_ n) v) (cache_ n1)) s1)
         ∧ operator_mul_assign fuel this rhs s
           = Ok tt (store this
                      (written (scalar_mul (value_ n) v) (cache_ n1)) s1)
         ∧ operator_div_assign fuel this rhs s
           = Ok tt (store this
                      (written (scalar_div (value_ n) v) (cache_ n1)) s1))
  ∧ (∀ rank room,
       well_wired rank room s → is_Some (heap s !! rhs) →
       (2 * rank rhs + 2 ≤ fuel)%nat →
       ∃ v s1, evaluate fuel rhs s = Ok v s1).
Proof.
  intros Ha written. split_and!.
  - intros v. unfold operator_assign_scalar, with_node. by rewrite Ha.
  - intros d. unfold operator_assign_double, with_node. by rewrite Ha.
  - intros v s1 H1.
    destruct (wiring_lookup s s1 this n (evaluate_wiring _ _ _ _ _ H1) Ha)
      as (n1 & Ha1 & Hsk).
    exists n1. split; [done|]. split; [done|].
    unfold operator_assign, operator_add_assign, operator_sub_assign,
      operator_mul_assign, operator_div_assign, compound_assign, with_node.
    rewrite H1. simpl. rewrite Ha1. unfold written.
    destruct n, n1. unfold skeleton in Hsk. simpl in *.
    injection Hsk as -> -> -> -> ->. done.
  - intros rank room Hw Hr Hfuel.
    destruct (proj1 (evaluate_total rank room fuel) rhs s Hw Hr Hfuel)
      as (v & s1 & H1 & _).
    by exists v, s1.
Qed.

End Properties.

(** * The statements at work on the sample states *)

Module Examples.

Import Sample.

Ltac each_node Ha :=
  repeat (apply lookup_insert_Some in Ha as [[<- <-]|[_ Ha]]);
  [..|by rewrite lookup_empty in Ha].

Lemma SumNet_input_dim_set_input_dim d (w : SumNet) :
  input_dim (set_input_dim d w) = d.
Proof. reflexivity. Qed.

Lemma SumNet_input_dim_add_linear_layer
    (activation : TinyNeuralNetworkActivation) units (w : SumNet) :
  input_dim (add_linear_layer activation units w) = input_dim w.
Proof. reflexivity. Qed.

Lemma SumNet_input_dim_net_initialize
    (init_method : TinyNeuralNetworkInitialization) (w : SumNet) :
  input_dim (net_initialize init_method w) = input_dim w.
Proof. reflexivity. Qed.

Lemma null_input_well_wired : well_wired sample_rank 1 null_input_state.
Proof.
  split.
  - intros buf Hbuf. discriminate Hbuf.
  - intros _ a n Ha Hin. unfold null_input_state, state_of in Ha.
    cbn [heap] in Ha. each_node Ha; simpl; (done || lia).
  - intros a n i p Ha Hp. unfold null_input_state, state_of in Ha.
    cbn [heap] in Ha. each_node Ha.
    + by destruct i.
    + destruct i as [|i]; [|by destruct i].
      injection Hp as <-. split_and!; [lia|by eexists|].
      unfold sample_rank. lia.
    + destruct i as [|i]; [done|by destruct i].
    + destruct i as [|[|i]]; [done|done|by destruct i].
  - intros a n Ha. unfold null_input_state, state_of in Ha.
    cbn [heap] in Ha. each_node Ha; done.
  - intros a n input output _. done.
Qed.

Lemma alias_state_well_wired : well_wired sample_rank 1 alias_state.
Proof.
  split.
  - intros buf Hbuf. discriminate Hbuf.
  - intros _ a n Ha Hin. unfold alias_state, state_of in Ha.
    cbn [heap] in Ha. each_node Ha; simpl; done.
  - intros a n i p Ha Hp. unfold alias_state, state_of in Ha.
    cbn [heap] in Ha. each_node Ha.
    + by destruct i.
    + destruct i as [|i]; [|by destruct i].
      injection Hp as <-. split_and!; [lia|by eexists|].
      unfold sample_rank. lia.
    + destruct i as [|i]; [|by destruct i].
      injection Hp as <-. split_and!; [lia|by eexists|].
      unfold sample_rank. lia.
  - intros a n Ha. unfold alias_state, state_of in Ha.
    cbn [heap] in Ha. each_node Ha; [done|done|].
    exists holder. split_and!; [done|unfold sample_rank; lia|done].
  - intros a n input output _. done.
Qed.

(** ** The sample states arise from calls of the public interface *)

Lemma null_input_state_reachable : reachable null_input_state.
Proof.
  unfold reachable.
  eapply rtc_l.
  { apply (api_construct _ 4 (NeuralScalar_of_inputs 0 [None; None] true));
      [reflexivity|constructor]. }
  eapply rtc_l.
  { apply (api_construct _ 3 (NeuralScalar_of_inputs 0 [None] true));
      [reflexivity|constructor]. }
  eapply rtc_l.
  { apply (api_construct _ 2
             (NeuralScalar_of_inputs 0 [Some 1%positive] true));
      [reflexivity|constructor]. }
  eapply rtc_l.
  { apply (api_construct _ 1 (leaf 5)); [reflexivity|constructor]. }
  apply rtc_refl.
Qed.

Lemma nested_state_reachable : reachable nested_state.
Proof.
  unfold reachable.
  eapply rtc_l.
  { apply (api_construct _ 4
             (NeuralScalar_of_inputs 0 [Some 2%positive; Some 3%positive]
                true)); [reflexivity|constructor]. }
  eapply rtc_l.
  { apply (api_construct _ 3
             (NeuralScalar_of_inputs 0 [Some 1%positive; Some 1%positive]
                true)); [reflexivity|constructor]. }
  eapply rtc_l.
  { apply (api_construct _ 2 (leaf 7)); [reflexivity|constructor]. }
  eapply rtc_l.
  { apply (api_construct _ 1 (leaf 5)); [reflexivity|constructor]. }
  apply rtc_refl.
Qed.

Lemma alias_state_reachable : reachable alias_state.
Proof.
  unfold reachable.
  eapply rtc_l.
  { apply (api_construct _ 3 (NeuralScalar_default 0));
      [reflexivity|constructor]. }
  eapply rtc_l.
  { apply (api_construct _ 2 (NeuralScalar_default 0));
      [reflexivity|constructor]. }
  eapply rtc_l.
  { apply (api_construct _ 1 (leaf 5)); [reflexivity|constructor]. }
  eapply rtc_l.
  { apply (api_connect _ 3 (Some 1%positive) NN_ACT_IDENTITY). reflexivity. }
  eapply rtc_l.
  { apply (api_operator_assign_scalar _ 3 3). reflexivity. }
  eapply rtc_l.
  { apply (api_assign _ 3 "x"). reflexivity. }
  eapply rtc_l.
  { apply (api_connect _ 2 (Some 1%positive) NN_ACT_IDENTITY). reflexivity. }
  eapply rtc_l.
  { apply (api_operator_assign_scalar _ 2 10). reflexivity. }
  eapply rtc_l.
  { apply (api_assign _ 2 "x"). reflexivity. }
  vm_compute. apply rtc_refl.
Qed.

Lemma blueprint_state_reachable : reachable blueprint_state.
Proof.
  unfold reachable.
  eapply rtc_l.
  { apply (api_construct _ 2 (leaf 9)); [reflexivity|constructor]. }
  eapply rtc_l.
  { apply (api_construct _ 3
             (NeuralScalar_of_inputs 0 [Some 2%positive] true));
      [reflexivity|constructor]. }
  eapply rtc_l.
  { apply (api_construct _ 1 (leaf 5)); [reflexivity|constructor]. }
  eapply rtc_l.
  { apply (api_assign _ 1 "x"). reflexivity. }
  eapply rtc_l.
  { apply (api_add_blueprint _ "y" ["x"%string] (mkSumNet 1 [1])). }
  vm_compute. apply rtc_refl.
Qed.

(** C1 at work: node 2 of [null_input_state], whose input is the leaf 5. *)
Lemma evaluate_dirty_own_witness :
  (∀ fuel network_output0 s1,
     evaluate_network_ fuel 2 null_input_state = Ok network_output0 s1 →
     ∃ input output rest log,
       compute (mkSumNet 1 []) input output = network_output0 :: rest
       ∧ compute_log s1 = log ++ [(2%positive, input)]
       ∧ evaluate (S fuel) 2 null_input_state
         = Ok (0 + network_output0)
             (store 2
                (mkNeuralScalar 0 (0 + network_output0) false
                   [Some 1%positive] (mkSumNet 1 []) EmptyString true) s1))
  ∧ ∃ network_output0 s1,
      evaluate_network_ 5 2 null_input_state = Ok network_output0 s1.
Proof.
  unshelve refine
    (let H := evaluate_dirty_own null_input_state 2
                (NeuralScalar_of_inputs 0 [Some 1%positive] true)
                eq_refl eq_refl _ (or_introl eq_refl) in
     conj (proj1 H)
       (proj2 H sample_rank 1%nat 5%nat null_input_well_wired _)).
  - discriminate.
  - unfold sample_rank. simpl. lia.
Defined.

(** The same node, run: the network gets the vector [5] and the node
    caches 0 + 5. *)
Lemma evaluate_dirty_own_run :
  ∃ s', evaluate 3 2 null_input_state = Ok 5 s'
        ∧ compute_log s' = [(2%positive, [5])]
        ∧ (is_dirty_ <$> heap s' !! 2%positive) = Some false
        ∧ (cache_ <$> heap s' !! 2%positive) = Some 5.
Proof. eexists. split_and!; vm_compute; reflexivity. Qed.

(** C2 at work: the leaf 5 of [null_input_state]. *)
Lemma evaluate_no_inputs_witness :
  (∃ s', evaluate 1 1 null_input_state = Ok 5 s'
         ∧ compute_log s' = compute_log null_input_state
         ∧ wiring s' = wiring null_input_state)
  ∧ (∀ junk v r a,
       ∃ s', evaluate 1 a
               (store a (set_is_residual r (NeuralScalar_of_value junk v))
                  null_input_state)
             = Ok v s'
             ∧ compute_log s' = compute_log null_input_state)
  ∧ (∀ junk r a,
       ∃ s', evaluate 1 a
               (store a (set_is_residual r (NeuralScalar_default junk))
                  null_input_state)
             = Ok 0 s'
             ∧ compute_log s' = compute_log null_input_state).
Proof.
  refine (evaluate_no_inputs null_input_state 1 (leaf 5) 0
            null_input_state_reachable _ _).
  - reflexivity.
  - reflexivity.
Defined.

(** C3 at work: the clean node 3 of [clean_state]. *)
Lemma evaluate_clean_witness :
  evaluate 1 3 clean_state = Ok 5 clean_state
  ∧ and_then (evaluate 1 3 clean_state) (λ _ s1, evaluate 1 3 s1)
    = Ok 5 clean_state.
Proof.
  refine (evaluate_clean clean_state 3 evaluated 0 _ _).
  - reflexivity.
  - reflexivity.
Defined.

(** C4 as stated fails: in [alias_state] node 3 is dirty, has an input, and
    its name x is registered to node 2.  [evaluate] on node 3 returns
    3 + 5 = 8, not the 10 + 5 = 15 that [evaluate] on node 2 returns; node 3
    is clean afterwards with 8 in its cache, node 2 is still dirty; and once
    x is registered to node 1, node 3 still answers 8. *)
Lemma alias_counterexample :
  heap alias_state !! 3%positive = Some alias
  ∧ is_dirty_ alias = true ∧ inputs_ alias ≠ []
  ∧ name_ alias ≠ EmptyString
  ∧ named_scalars_ alias_state !! name_ alias = Some 2%positive
  ∧ ∃ s3 s2,
      evaluate 4 3 alias_state = Ok 8 s3
      ∧ evaluate 4 2 alias_state = Ok 15 s2
      ∧ heap s3 !! 3%positive = Some (set_is_dirty false (set_cache 8 alias))
      ∧ heap s3 !! 3%positive ≠ heap alias_state !! 3%positive
      ∧ heap s3 !! 2%positive = Some holder
      ∧ evaluate 4 3
          (set_named_scalars {[ "x"%string := 1%positive ]} s3)
        = Ok 8 (set_named_scalars {[ "x"%string := 1%positive ]} s3).
Proof.
  split_and!; [reflexivity|reflexivity|discriminate|discriminate|reflexivity|].
  eexists _, _.
  split_and!; [vm_compute; reflexivity..|discriminate| |];
    vm_compute; reflexivity.
Qed.

(** The chain of registrations: [evaluate_network_] on node 5 is handed to
    node 4, the holder of x, and from there to node 3, the holder of y. *)
Lemma chain_state_delegates :
  rtc (delegates chain_state) 4%positive 3%positive.
Proof.
  eapply rtc_l; [|apply rtc_refl].
  exists chain_link. split; vm_compute; reflexivity.
Qed.

Lemma chain_state_well_wired : well_wired sample_rank 1 chain_state.
Proof.
  split.
  - intros buf Hbuf. discriminate Hbuf.
  - intros _ a n Ha Hin. unfold chain_state, state_of in Ha.
    cbn [heap] in Ha. each_node Ha; simpl; done.
  - intros a n i p Ha Hp. unfold chain_state, state_of in Ha.
    cbn [heap] in Ha. each_node Ha.
    + by destruct i.
    + by destruct i.
    + destruct i as [|i]; [|by destruct i].
      injection Hp as <-. split_and!; [lia|by eexists|].
      unfold sample_rank. lia.
    + destruct i as [|i]; [|by destruct i].
      injection Hp as <-. split_and!; [lia|by eexists|].
      unfold sample_rank. lia.
    + destruct i as [|i]; [|by destruct i].
      injection Hp as <-. split_and!; [lia|by eexists|].
      unfold sample_rank. lia.
  - intros a n Ha. unfold chain_state, state_of in Ha.
    cbn [heap] in Ha. each_node Ha.
    + exact I.
    + exact I.
    + replace (resolve 3 chain_head _) with Own
        by (vm_compute; reflexivity).
      exact I.
    + replace (resolve 4 chain_link _) with (Delegate 3)
        by (vm_compute; reflexivity).
      exists chain_head. split_and!; [done|unfold sample_rank; lia|done].
    + replace (resolve 5 chain_alias _) with (Delegate 4)
        by (vm_compute; reflexivity).
      exists chain_link. split_and!; [done|unfold sample_rank; lia|done].
  - intros a n input output _. done.
Qed.

Lemma chain_state_reachable : reachable chain_state.
Proof.
  unfold reachable.
  eapply rtc_l.
  { apply (api_construct _ 5 (NeuralScalar_default 0));
      [reflexivity|constructor]. }
  eapply rtc_l.
  { apply (api_construct _ 4 (NeuralScalar_default 0));
      [reflexivity|constructor]. }
  eapply rtc_l.
  { apply (api_construct _ 3 (NeuralScalar_default 0));
      [reflexivity|constructor]. }
  eapply rtc_l.
  { apply (api_construct _ 2 (leaf 7)); [reflexivity|constructor]. }
  eapply rtc_l.
  { apply (api_construct _ 1 (leaf 5)); [reflexivity|constructor]. }
  eapply rtc_l.
  { apply (api_connect _ 5 (Some 1%positive) NN_ACT_IDENTITY). vm_compute. reflexivity. }
  eapply rtc_l.
  { apply (api_operator_assign_scalar _ 5 3). vm_compute. reflexivity. }
  eapply rtc_l.
  { apply (api_connect _ 4 (Some 1%positive) NN_ACT_IDENTITY). vm_compute. reflexivity. }
  eapply rtc_l.
  { apply (api_connect _ 3 (Some 2%positive) NN_ACT_IDENTITY). vm_compute. reflexivity. }
  eapply rtc_l.
  { apply (api_operator_assign_scalar _ 3 10). vm_compute. reflexivity. }
  eapply rtc_l.
  { apply (api_assign _ 5 "x"). vm_compute. reflexivity. }
  eapply rtc_l.
  { apply (api_assign _ 4 "x"). vm_compute. reflexivity. }
  eapply rtc_l.
  { apply (api_assign _ 4 "y"). vm_compute. reflexivity. }
  eapply rtc_l.
  { apply (api_assign _ 3 "y"). vm_compute. reflexivity. }
  vm_compute. apply rtc_refl.
Qed.

(** C4, amended, at work on the chain: node 5, named x, takes what
    [evaluate_network_] of node 4 returns, and that is the output of the
    network of a node at the end of the chain of registrations from 4. *)
Lemma evaluate_dirty_alias_witness :
  (∀ fuel net_output s1,
     evaluate_network_ fuel 4 chain_state = Ok net_output s1 →
     evaluate (S (S fuel)) 5 chain_state
     = Ok (3 + net_output)
         (store 5
            (mkNeuralScalar 3 (3 + net_output) false [Some 1%positive]
               (mkSumNet 1 [1]) "x" true) s1)
     ∧ (∀ fuel' (s'' : state Z SumNet),
          heap s'' !! 5%positive
          = heap (store 5
                    (mkNeuralScalar 3 (3 + net_output) false
                       [Some 1%positive] (mkSumNet 1 [1]) "x" true) s1)
              !! 5%positive →
          evaluate (S fuel') 5 s'' = Ok (3 + net_output) s'')
     ∧ ∃ r nr fuel0 s0 input output rest,
         rtc (delegates chain_state) 4%positive r
         ∧ heap chain_state !! r = Some nr ∧ resolve r nr chain_state = Own
         ∧ fill_inputs (evaluate fuel0) (inputs_ nr) 0
             (init_static_inputs (length (inputs_ nr)) chain_state)
           = Ok tt s0
         ∧ static_inputs s0 = Some input
         ∧ compute (net_ nr) input output = net_output :: rest
         ∧ compute_log s1 = compute_log s0 ++ [(r, input)])
  ∧ ∃ net_output s1,
      evaluate_network_ 10 4 chain_state = Ok net_output s1.
Proof.
  unshelve refine
    (let H := evaluate_dirty_alias chain_state 5 chain_alias 4
                eq_refl eq_refl _ _ eq_refl _ in
     conj (proj1 H)
       (proj2 H sample_rank 1%nat 10%nat chain_state_well_wired _)).
  - discriminate.
  - discriminate.
  - discriminate.
  - unfold sample_rank. simpl. lia.
Defined.

(** The run on the chain.  Node 5 evaluates to 3 + 7 = 10: its own value
    and the output of the network of node 3 on the value 7 of node 3's
    input; the network and the input of node 4, the holder of x, are not
    used, and neither node 4 nor node 3 is written. *)
Lemma evaluate_alias_chain_run :
  named_scalars_ chain_state !! name_ chain_alias = Some 4%positive
  ∧ named_scalars_ chain_state !! name_ chain_link = Some 3%positive
  ∧ resolve 3 chain_head chain_state = Own
  ∧ ∃ s', evaluate 6 5 chain_state = Ok 10 s'
          ∧ compute_log s' = [(3%positive, [7])]
          ∧ heap s' !! 5%positive
            = Some (set_is_dirty false (set_cache 10 chain_alias))
          ∧ heap s' !! 4%positive = Some chain_link
          ∧ heap s' !! 3%positive = Some chain_head.
Proof.
  split_and!; [reflexivity..|].
  eexists. split_and!; vm_compute; reflexivity.
Qed.

(** C5 as stated fails: node 3 of [blueprint_state] has node 2 as its input;
    the blueprint for y names x, which node 1 holds.  After [assign] node 3
    has inputs 2 and 1: its old input is still the first, and the
    blueprint's input has been added behind it. *)
Lemma assign_counterexample :
  (heap blueprint_state !! 3%positive
   = Some (NeuralScalar_of_inputs 0 [Some 2%positive] true))
  ∧ (input_names <$> blueprints_ blueprint_state !! "y"%string)
    = Some ["x"%string]
  ∧ retrieve "x" blueprint_state = Some 1%positive
  ∧ ∃ s', assign 3 "y" blueprint_state = Assigned s'
          ∧ (inputs_ <$> heap s' !! 3%positive)
            = Some [Some 2%positive; Some 1%positive]
          ∧ (inputs_ <$> heap s' !! 3%positive) ≠ Some [Some 1%positive].
Proof.
  split_and!; [reflexivity|reflexivity|reflexivity|].
  eexists. split_and!; [vm_compute; reflexivity|reflexivity|discriminate].
Qed.

(** C5, amended, at work on the same state. *)
Lemma assign_spec_witness :
  (blueprints_ blueprint_state !! "y"%string = None →
   assign 3 "y" blueprint_state
   = Assigned
       (set_named_scalars
          (<["y"%string := 3%positive]> (named_scalars_ blueprint_state))
          (store 3
             (set_name "y" (NeuralScalar_of_inputs 0 [Some 2%positive] true))
             blueprint_state)))
  ∧ (∀ blueprint,
       blueprints_ blueprint_state !! "y"%string = Some blueprint →
       Forall (λ x, is_Some (retrieve x blueprint_state))
         (input_names blueprint) →
       assign 3 "y" blueprint_state
       = Assigned
           (set_named_scalars
              (<["y"%string := 3%positive]> (named_scalars_ blueprint_state))
              (store 3
                 (mkNeuralScalar 0 0 true
                    ([Some 2%positive]
                     ++ map (λ x, retrieve x blueprint_state)
                          (input_names blueprint))
                    (net blueprint) "y" true) blueprint_state)))
  ∧ (∀ blueprint pre x post,
       blueprints_ blueprint_state !! "y"%string = Some blueprint →
       input_names blueprint = pre ++ x :: post →
       Forall (λ y, is_Some (retrieve y blueprint_state)) pre →
       retrieve x blueprint_state = None →
       ∃ s', assign 3 "y" blueprint_state = Aborted (diagnostic x) s'
             ∧ named_scalars_ s' = named_scalars_ blueprint_state).
Proof.
  refine (assign_spec blueprint_state 3
            (NeuralScalar_of_inputs 0 [Some 2%positive] true) "y" _).
  reflexivity.
Defined.

(** The blueprint for y asks for x and z; nobody holds z: the process ends
    with the diagnostic for z and node 3 is not registered. *)
Lemma assign_unresolved_example :
  ∃ s', assign 3 "y" unresolved_state = Aborted (diagnostic "z") s'
        ∧ named_scalars_ s' !! "y"%string = None
        ∧ retrieve "y" s' = None.
Proof. eexists. split_and!; [vm_compute; reflexivity|reflexivity..]. Qed.

(** C6 fails on the code.  In [null_input_state], after [p.evaluate()],
    whose network ran on the input vector [5], [q.evaluate()] runs the
    network of [q], whose only input is null, on the same static vector,
    still [5] and not [zero]; and [r.evaluate()], with two null inputs,
    passes that one-entry vector too.  In [nested_state], [c.evaluate()]
    first writes 7, the value of [a], then evaluates [b], whose own run
    writes 5 and 5 into the same vector: the network of [c] gets 5 and 10
    instead of 7 and 10, and [c] evaluates to 15. *)
Theorem static_inputs_vector :
  ((inputs_ <$> heap null_input_state !! 3%positive) = Some [None]
   ∧ (inputs_ <$> heap null_input_state !! 4%positive) = Some [None; None]
   ∧ (zero : Z) = 0
   ∧ ∃ s2 s3 s4,
       evaluate 3 2 null_input_state = Ok 5 s2
       ∧ evaluate 3 3 s2 = Ok 5 s3
       ∧ evaluate 3 4 s3 = Ok 5 s4
       ∧ compute_log s4
         = [(2%positive, [5]); (3%positive, [5]); (4%positive, [5])])
  ∧ ((inputs_ <$> heap nested_state !! 4%positive)
     = Some [Some 2%positive; Some 3%positive]
     ∧ ∃ s2 s3 s4,
         evaluate 5 2 nested_state = Ok 7 s2
         ∧ evaluate 5 3 nested_state = Ok 10 s3
         ∧ evaluate 5 4 nested_state = Ok 15 s4
         ∧ compute_log s4
           = [(3%positive, [5; 5]); (4%positive, [5; 10])]).
Proof.
  split.
  - split_and!; [reflexivity..|].
    eexists _, _, _. split_and!; vm_compute; reflexivity.
  - split; [reflexivity|].
    eexists _, _, _. split_and!; vm_compute; reflexivity.
Qed.

(** C7 at work: the first [connect] of a node without a network. *)
Lemma connect_spec_witness :
  connect 1 (Some 2%positive) NN_ACT_IDENTITY
    (store 1 (leaf 0) (store 2 (leaf 5) initial_state))
  = Ok tt
      (store 1
         (mkNeuralScalar 0 0 true [Some 2%positive] (mkSumNet 1 [1])
            EmptyString true)
         (store 1 (leaf 0) (store 2 (leaf 5) initial_state)))
  ∧ input_dim (mkSumNet 1 [1]) = 0 + 1
  ∧ (∀ m : NeuralScalar Z SumNet,
       (output_dim (net_ m) ≠ 0 → set_dirty m = set_is_dirty true m)
       ∧ (output_dim (net_ m) = 0 → set_dirty m = m)).
Proof.
  refine (connect_spec SumNet_input_dim_set_input_dim
            SumNet_input_dim_add_linear_layer
            SumNet_input_dim_net_initialize
            (store 1 (leaf 0) (store 2 (leaf 5) initial_state)) 1 (leaf 0)
            (Some 2%positive) NN_ACT_IDENTITY _ _).
  - reflexivity.
  - reflexivity.
Defined.

(** C8 at work: [p + a] and the other operators on [null_input_state]. *)
Lemma operators_collapse_witness :
  let plain := NeuralScalar_of_value 0 in
  (∀ x y s2,
     (∃ s1, evaluate 6 2 null_input_state = Ok x s1
            ∧ evaluate 6 1 s1 = Ok y s2) →
     wiring s2 = wiring null_input_state
     ∧ operator_add 0 LhsFirst 6 2 1 null_input_state = Ok (plain (x + y)) s2
     ∧ operator_sub 0 LhsFirst 6 2 1 null_input_state = Ok (plain (x - y)) s2
     ∧ operator_mul 0 LhsFirst 6 2 1 null_input_state = Ok (plain (x * y)) s2
     ∧ operator_div 0 LhsFirst 6 2 1 null_input_state
       = Ok (plain (x `div` y)) s2
     ∧ operator_lt LhsFirst 6 2 1 null_input_state = Ok (x <? y) s2
     ∧ operator_le LhsFirst 6 2 1 null_input_state = Ok (x <=? y) s2
     ∧ operator_gt LhsFirst 6 2 1 null_input_state = Ok (x >? y) s2
     ∧ operator_eq LhsFirst 6 2 1 null_input_state = Ok (x =? y) s2
     ∧ operator_ne LhsFirst 6 2 1 null_input_state = Ok (negb (x =? y)) s2)
  ∧ (∀ y s1,
       evaluate 6 1 null_input_state = Ok y s1 →
       wiring s1 = wiring null_input_state
       ∧ operator_neg 0 6 1 null_input_state = Ok (plain (- y)) s1)
  ∧ (∃ x y s2,
       evaluate_both LhsFirst 6 2 1 null_input_state = Ok (x, y) s2)
  ∧ (∀ v,
       inputs_ (plain v) = [] ∧ net_ (plain v) = net_default
       ∧ name_ (plain v) = EmptyString
       ∧ ∀ c (s3 : state Z SumNet) fuel',
           heap s3 !! c = Some (plain v) →
           ∃ s4, evaluate (S fuel') c s3 = Ok v s4
                 ∧ compute_log s4 = compute_log s3).
Proof.
  unshelve refine
    (let H := operators_collapse 0 LhsFirst 6 2 1 null_input_state
                Z.mul_comm in
     conj (proj1 H)
       (conj (proj1 (proj2 H))
          (conj (proj1 (proj2 (proj2 H)) sample_rank 1%nat
                   null_input_well_wired _ _ _ _)
             (proj2 (proj2 (proj2 H)))))).
  - by eexists.
  - by eexists.
  - unfold sample_rank. simpl. lia.
  - unfold sample_rank. simpl. lia.
Defined.

(** [p + a] run: 5 + 5. *)
Lemma operator_add_run :
  ∃ s', operator_add 0 LhsFirst 6 2 1 null_input_state = Ok (leaf 10) s'
        ∧ wiring s' = wiring null_input_state.
Proof. eexists. split; vm_compute; reflexivity. Qed.

(** C9 at work: [q = p], [q += p] and the others on [null_input_state]. *)
Lemma assignment_frame_witness :
  let written value cache :=
    mkNeuralScalar value cache true [None] (mkSumNet 1 []) EmptyString true in
  (∀ v, operator_assign_scalar 3 v null_input_state
        = Ok tt (store 3 (written v 0) null_input_state))
  ∧ (∀ d, operator_assign_double 3 d null_input_state
          = Ok tt (store 3 (written d 0) null_input_state))
  ∧ (∀ v s1,
       evaluate 6 2 null_input_state = Ok v s1 →
       ∃ n1,
         heap s1 !! 3%positive = Some n1
         ∧ skeleton n1 = skeleton (NeuralScalar_of_inputs 0 [None] true)
         ∧ operator_assign 6 3 2 null_input_state
           = Ok tt (store 3 (written v (cache_ n1)) s1)
         ∧ operator_add_assign 6 3 2 null_input_state
           = Ok tt (store 3 (written (0 + v) (cache_ n1)) s1)
         ∧ operator_sub_assign 6 3 2 null_input_state
           = Ok tt (store 3 (written (0 - v) (cache_ n1)) s1)
         ∧ operator_mul_assign 6 3 2 null_input_state
           = Ok tt (store 3 (written (0 * v) (cache_ n1)) s1)
         ∧ operator_div_assign 6 3 2 null_input_state
           = Ok tt (store 3 (written (0 `div` v) (cache_ n1)) s1))
  ∧ ∃ v s1, evaluate 6 2 null_input_state = Ok v s1.
Proof.
  unshelve refine
    (let H := assignment_frame 6 3 2 null_input_state
                (NeuralScalar_of_inputs 0 [None] true) eq_refl in
     conj (proj1 H)
       (conj (proj1 (proj2 H))
          (conj (proj1 (proj2 (proj2 H)))
             (proj2 (proj2 (proj2 H)) sample_rank 1%nat
                null_input_well_wired _ _)))).
  - by eexists.
  - unfold sample_rank. simpl. lia.
Defined.

(** [q += p] run: the value of [q] becomes 0 + 5 and [q] is dirty. *)
Lemma operator_add_assign_run :
  ∃ s', operator_add_assign 6 3 2 null_input_state = Ok tt s'
        ∧ (value_ <$> heap s' !! 3%positive) = Some 5
        ∧ (is_dirty_ <$> heap s' !! 3%positive) = Some true
        ∧ (inputs_ <$> heap s' !! 3%positive) = Some [None].
Proof. eexists. split_and!; vm_compute; reflexivity. Qed.

(** C10 at work: [assign] of y to the clean node 3 of [clean_state]. *)
Lemma assign_keeps_cache_witness :
  ∃ s' n',
    (assign 3 "y" clean_state = Assigned s'
     ∨ ∃ message, assign 3 "y" clean_state = Aborted message s')
    ∧ heap s' !! 3%positive = Some n'
    ∧ value_ n' = 5 ∧ cache_ n' = 5 ∧ is_dirty_ n' = false
    ∧ (false = false → ∀ fuel, evaluate (S fuel) 3 s' = Ok 5 s').
Proof.
  refine (assign_keeps_cache clean_state 3 evaluated "y" _).
  reflexivity.
Defined.

(** The same run: the blueprint gives node 3 the input 1 and its network,
    and [evaluate] still answers the cached 5 without running [compute]. *)
Lemma assign_clean_run :
  ∃ s', assign 3 "y" clean_state = Assigned s'
        ∧ (inputs_ <$> heap s' !! 3%positive) = Some [Some 1%positive]
        ∧ (net_ <$> heap s' !! 3%positive) = Some (mkSumNet 1 [1])
        ∧ evaluate 2 3 s' = Ok 5 s'.
Proof. eexists. split_and!; vm_compute; reflexivity. Qed.

End Examples.

(** * Further properties of the scalars *)

Section FurtherProperties.

Context {Scalar Net : Type} `{!Utils Scalar} `{!NeuralNetworkType Scalar Net}.

Implicit Types (s : state Scalar Net) (n m : NeuralScalar Scalar Net).
Implicit Types (a this p q : addr) (v : Scalar).

(** ** Helpers *)

Lemma evaluate_result_cached fuel a s v s' :
  evaluate fuel a s = Ok v s' →
  ∃ n', heap s' !! a = Some n' ∧ is_dirty_ n' = false ∧ cache_ n' = v.
Proof.
  destruct fuel as [|fuel]; [done|]. rewrite evaluate_S.
  destruct (heap s !! a) as [n|] eqn:Ha; [|done].
  destruct (is_dirty_ n) eqn:Hd; simpl.
  - case_bool_decide as Hin.
    + intros [= <- <-]. eexists. split; [apply lookup_insert_eq|done].
    + intros (o & s1 & _ & Hk)%and_then_Ok.
      destruct (heap s1 !! a) as [n1|]; [|done].
      injection Hk as <- <-. eexists. split; [apply lookup_insert_eq|done].
  - intros [= <- <-]. by exists n.
Qed.

Lemma evaluate_not_Ok_dangling fuel a s v s' :
  heap s !! a = None → evaluate fuel a s ≠ Ok v s'.
Proof.
  intros Ha. destruct fuel as [|fuel]; [done|]. by rewrite evaluate_S, Ha.
Qed.

Lemma wiring_lookup_None s s' a :
  wiring s' = wiring s → heap s !! a = None → heap s' !! a = None.
Proof.
  intros Hw Ha. destruct (heap s' !! a) as [n'|] eqn:Ha'; [|done].
  destruct (wiring_lookup s' s a n' (eq_sym Hw) Ha') as (n & ? & _).
  congruence.
Qed.

(** What a returning run of the loop of lines 66-69 has done for each
    present input, for a property [I] of the state that the calls of [ev]
    and the writes into the static vector keep. *)
Lemma fill_inputs_inv (I : state Scalar Net → Prop) ev ins :
  (∀ p s v s', I s → ev p s = Ok v s' → I s') →
  (∀ s buf i v, I s → static_inputs s = Some buf →
                I (set_static_inputs (Some (<[i:=v]> buf)) s)) →
  ∀ i s u s',
    I s → fill_inputs ev ins i s = Ok u s' →
    I s'
    ∧ ∀ j p, ins !! j = Some (Some p) →
        ∃ s1 v s2 buf,
          I s1 ∧ ev p s1 = Ok v s2 ∧ static_inputs s2 = Some buf
          ∧ (i + j < length buf)%nat.
Proof.
  intros Hev Hwrite.
  induction ins as [|[p|] rest IH]; intros i s u s' HI H; simpl in H.
  - injection H as _ <-. split; [done|]. intros j p Hj. by destruct j.
  - apply and_then_Ok in H as (v & s1 & Hp & H).
    destruct (static_inputs s1) as [buf|] eqn:Hbuf; [|done].
    case_bool_decide as Hi; [|done].
    pose proof (Hev _ _ _ _ HI Hp) as HI1.
    destruct (IH _ _ _ _ (Hwrite _ _ i v HI1 Hbuf) H) as (HI' & Hrest).
    split; [done|]. intros [|j] q Hq.
    + injection Hq as <-. exists s, v, s1, buf.
      split_and!; [done|done|done|lia].
    + destruct (Hrest j q Hq) as (s2 & w & s3 & b & ? & ? & ? & ?).
      exists s2, w, s3, b. split_and!; [done|done|done|lia].
  - destruct (IH _ _ _ _ HI H) as (HI' & Hrest).
    split; [done|]. intros [|j] q Hq; [done|].
    destruct (Hrest j q Hq) as (s2 & w & s3 & b & ? & ? & ? & ?).
    exists s2, w, s3, b. split_and!; [done|done|done|lia].
Qed.

(** ** Memoisation *)

(** X1: once [evaluate] has returned a scalar for a node, in whatever state
    it started, every further [evaluate] of that node returns the same
    scalar and changes nothing, so it runs no network. *)
Theorem evaluate_twice fuel a s v s' :
  evaluate fuel a s = Ok v s' →
  ∀ fuel', evaluate (S fuel') a s' = Ok v s'.
Proof.
  intros (n' & Ha & Hd & Hc)%evaluate_result_cached fuel'.
  rewrite evaluate_S, Ha, Hd. simpl. by rewrite Hc.
Qed.

(** X2: [evaluate] is [const] in effect: when it returns, every node still
    exists with its value, inputs, network, name and [is_residual], the two
    registries are as before, earlier calls of [compute] stay logged in
    order, and the static input vector, once declared, keeps its length. *)
Theorem evaluate_const fuel a s v s' :
  evaluate fuel a s = Ok v s' →
  wiring s' = wiring s
  ∧ (∀ b, is_Some (heap s' !! b) ↔ is_Some (heap s !! b))
  ∧ (∃ l, compute_log s' = compute_log s ++ l)
  ∧ (∀ buf, static_inputs s = Some buf →
            ∃ buf', static_inputs s' = Some buf'
                    ∧ length buf' = length buf).
Proof.
  intros H. pose proof (proj1 (evaluate_touched fuel) _ _ _ _ H) as Ht.
  pose proof (touched_wiring _ _ Ht) as Hw.
  split_and!; [done| |by apply touched_compute_log|].
  - intros b. split; intros [k Hk].
    + destruct (wiring_lookup s' s b k (eq_sym Hw) Hk) as (k' & ? & _).
      by exists k'.
    + destruct (wiring_lookup s s' b k Hw Hk) as (k' & ? & _). by exists k'.
  - intros buf Hbuf. by eapply touched_static_inputs.
Qed.

(** ** Runs that do not return *)

Lemma cyclic_ext (C : addr → Prop) s s' :
  (∀ a, C a → heap s' !! a = heap s !! a) →
  named_scalars_ s' = named_scalars_ s →
  cyclic C s → cyclic C s'.
Proof.
  intros Hheap Hreg Hs a Ca.
  destruct (Hs a Ca) as (n & i & q & Ha & Hd & Hown & Hq & Cq).
  exists n, i, q. rewrite (Hheap a Ca). split_and!; try done.
  revert Hown. unfold resolve. by rewrite Hreg.
Qed.

Lemma cyclic_store (C : addr → Prop) s a n :
  ¬ C a → cyclic C s → cyclic C (store a n s).
Proof.
  intros Ca. apply cyclic_ext; [|done].
  intros b Cb. simpl. apply lookup_insert_ne. by intros ->.
Qed.

Lemma evaluate_cyclic (C : addr → Prop) fuel :
  ∀ s, cyclic C s →
    (∀ a v s', evaluate fuel a s = Ok v s' → ¬ C a ∧ cyclic C s')
    ∧ (∀ a v s', evaluate_network_ fuel a s = Ok v s' →
                 ¬ C a ∧ cyclic C s').
Proof.
  induction fuel as [|fuel IH]; intros s Hs; [by split|].
  split; intros a v s' H.
  - rewrite evaluate_S in H.
    destruct (heap s !! a) as [n|] eqn:Ha; [|done].
    destruct (is_dirty_ n) eqn:Hd; simpl in H.
    + case_bool_decide as Hin.
      * injection H as _ <-.
        assert (¬ C a) as Ca.
        { intros Ca. destruct (Hs a Ca) as (n' & i & q & Ha' & _ & _ & Hq & _).
          rewrite Ha in Ha'. injection Ha' as <-. by rewrite Hin in Hq. }
        split; [done|]. by apply cyclic_store.
      * apply and_then_Ok in H as (o & s1 & Hnet & H).
        destruct (proj2 (IH s Hs) _ _ _ Hnet) as (Ca & Hs1).
        destruct (heap s1 !! a) as [n1|]; [|done]. injection H as _ <-.
        split; [done|]. by apply cyclic_store.
    + injection H as _ <-. split; [|done].
      intros Ca. destruct (Hs a Ca) as (n' & i & q & Ha' & Hd' & _).
      congruence.
  - rewrite evaluate_network_S in H.
    destruct (heap s !! a) as [n|] eqn:Ha; [|done].
    destruct (resolve a n s) as [|t|] eqn:Hres; [| |done].
    + apply and_then_Ok in H as (u & s1 & Hfill & H).
      assert (Hs0 : cyclic C (init_static_inputs (length (inputs_ n)) s)).
      { revert Hs. apply cyclic_ext; unfold init_static_inputs;
          by destruct (static_inputs s). }
      destruct (fill_inputs_inv (cyclic C) (evaluate fuel) (inputs_ n))
        with (i := 0%nat) (s := init_static_inputs (length (inputs_ n)) s)
             (u := u) (s' := s1) as (Hs1 & Hins); [| |done|done|].
      { intros p s2 w s3 Hs2 Hp. by destruct (proj1 (IH s2 Hs2) _ _ _ Hp). }
      { intros s2 buf i w Hs2 _. revert Hs2. by apply cyclic_ext. }
      apply run_network_Ok in H as (input & output & rest & _ & _ & _ & ->).
      split.
      * intros Ca. destruct (Hs a Ca) as (n' & i & q & Ha' & _ & _ & Hq & Cq).
        rewrite Ha in Ha'. injection Ha' as <-.
        destruct (Hins i q Hq) as (s2 & w & s3 & buf & Hs2 & Hev & _).
        by destruct (proj1 (IH s2 Hs2) _ _ _ Hev).
      * revert Hs1. apply cyclic_ext; simpl; unfold init_static_output;
          by destruct (static_output s1).
    + destruct (proj2 (IH s Hs) _ _ _ H) as (_ & Hs').
      split; [|done]. intros Ca.
      destruct (Hs a Ca) as (n' & i & q & Ha' & _ & Hown & _).
      rewrite Ha in Ha'. injection Ha' as <-. congruence.
Qed.

(** X3: a cycle in the input graph is not detected.  When every node of a
    set is dirty, runs its own network and has an input in the set,
    [evaluate] and [evaluate_network_] return for no node of the set,
    whatever the recursion depth allowed. *)
Theorem evaluate_cycle (C : addr → Prop) s a :
  cyclic C s → C a →
  ∀ fuel v s',
    evaluate fuel a s ≠ Ok v s' ∧ evaluate_network_ fuel a s ≠ Ok v s'.
Proof.
  intros Hs Ca fuel v s'. split; intros H.
  - by destruct (proj1 (evaluate_cyclic C fuel s Hs) _ _ _ H).
  - by destruct (proj2 (evaluate_cyclic C fuel s Hs) _ _ _ H).
Qed.

(** X4: a destroyed node is not detected either.  [evaluate] on an address
    that holds no node is undefined, and a dirty node that runs its own
    network and has such an address among its inputs never returns; the
    same holds for an alias whose registered target has been destroyed. *)
Theorem evaluate_dangling s this n :
  heap s !! this = Some n → is_dirty_ n = true → inputs_ n ≠ [] →
  (∀ gone fuel, heap s !! gone = None →
                evaluate (S fuel) gone s = Undefined)
  ∧ (∀ i p, resolve this n s = Own →
            inputs_ n !! i = Some (Some p) → heap s !! p = None →
            ∀ fuel v s', evaluate fuel this s ≠ Ok v s')
  ∧ (∀ t, resolve this n s = Delegate t → heap s !! t = None →
          ∀ fuel, evaluate (S (S (S fuel))) this s = Undefined).
Proof.
  intros Ha Hd Hin. split_and!.
  - intros gone fuel Hg. by rewrite evaluate_S, Hg.
  - intros i p Hown Hp Hgone fuel v s' H.
    destruct fuel as [|[|fuel]]; [done| |].
    { rewrite evaluate_S, Ha, Hd in H. cbn [negb] in H.
      by rewrite bool_decide_eq_false_2 in H by done. }
    rewrite evaluate_S, Ha, Hd in H. cbn [negb] in H.
    rewrite bool_decide_eq_false_2 in H by done.
    apply and_then_Ok in H as (o & s1 & Hnet & _).
    rewrite evaluate_network_S, Ha, Hown in Hnet.
    apply and_then_Ok in Hnet as (u & s0 & Hfill & _).
    destruct (fill_inputs_inv (λ s1, heap s1 !! p = None) (evaluate fuel)
                (inputs_ n))
      with (i := 0%nat) (s := init_static_inputs (length (inputs_ n)) s)
           (u := u) (s' := s0) as (_ & Hins); [| | |done|].
    { intros q s2 w s3 Hs2 Hq. eapply wiring_lookup_None; [|done].
      by eapply evaluate_wiring. }
    { done. }
    { unfold init_static_inputs. by destruct (static_inputs s). }
    destruct (Hins i p Hp) as (s2 & w & s3 & buf & Hs2 & Hev & _).
    by eapply evaluate_not_Ok_dangling.
  - intros t Hres Ht fuel.
    rewrite evaluate_S, Ha, Hd. cbn [negb].
    rewrite bool_decide_eq_false_2 by done.
    by rewrite evaluate_network_S, Ha, Hres, evaluate_network_S, Ht.
Qed.

(** X5: the static input vector is never resized.  Once it has been
    declared with [length buf] entries, a dirty node that runs its own
    network and has a present input at an index from [length buf] on never
    returns from [evaluate]: the write [inputs[i]] is out of range. *)
Theorem evaluate_static_vector_too_short s this n buf i p :
  heap s !! this = Some n → is_dirty_ n = true →
  resolve this n s = Own →
  static_inputs s = Some buf →
  inputs_ n !! i = Some (Some p) → (length buf ≤ i)%nat →
  ∀ fuel v s', evaluate fuel this s ≠ Ok v s'.
Proof.
  intros Ha Hd Hown Hbuf Hp Hi fuel v s' H.
  assert (Hin : inputs_ n ≠ []) by (intros Hnil; by rewrite Hnil in Hp).
  destruct fuel as [|[|fuel]]; [done| |].
  { rewrite evaluate_S, Ha, Hd in H. cbn [negb] in H.
    by rewrite bool_decide_eq_false_2 in H by done. }
  rewrite evaluate_S, Ha, Hd in H. cbn [negb] in H.
  rewrite bool_decide_eq_false_2 in H by done.
  apply and_then_Ok in H as (o & s1 & Hnet & _).
  rewrite evaluate_network_S, Ha, Hown in Hnet.
  apply and_then_Ok in Hnet as (u & s0 & Hfill & _).
  set (I := λ s1 : state Scalar Net,
         ∃ b, static_inputs s1 = Some b ∧ length b = length buf).
  assert (HevI : ∀ q s2 w s3, I s2 → evaluate fuel q s2 = Ok w s3 → I s3).
  { intros q s2 w s3 (b & Hb & Hlen) Hq.
    destruct (touched_static_inputs s2 s3 b) as (b' & Hb' & Hlen');
      [exact (proj1 (evaluate_touched fuel) _ _ _ _ Hq)|done|].
    exists b'. split; [done|]. by rewrite Hlen'. }
  destruct (fill_inputs_inv I (evaluate fuel) (inputs_ n))
    with (i := 0%nat) (s := init_static_inputs (length (inputs_ n)) s)
         (u := u) (s' := s0) as (_ & Hins); [done| | |done|].
  { intros s2 b j w (b0 & Hb0 & Hlen) Hb. rewrite Hb0 in Hb.
    injection Hb as <-. eexists. split; [done|].
    by rewrite length_insert. }
  { unfold init_static_inputs. rewrite Hbuf. by exists buf. }
  destruct (Hins i p Hp) as (s2 & w & s3 & b & Hs2 & Hev & Hb & Hlt).
  destruct (HevI _ _ _ _ Hs2 Hev) as (b' & Hb' & Hlen).
  rewrite Hb in Hb'. injection Hb' as <-. lia.
Qed.

(** ** Assignment, then evaluation *)

Lemma evaluate_dirty_leaf fuel s this n :
  heap s !! this = Some n → is_dirty_ n = true → inputs_ n = [] →
  evaluate (S fuel) this s
  = Ok (value_ n)
      (store this (set_cache (value_ n) (set_is_dirty false n)) s).
Proof.
  intros Ha Hd Hin. rewrite evaluate_S, Ha, Hd. cbn [negb].
  by rewrite bool_decide_eq_true_2.
Qed.

(** X6: what is assigned to a node without inputs is what it evaluates to.
    After assignment of a scalar or a double, [evaluate] returns that
    scalar; after assignment of a node, what that node evaluated to; after
    a compound assignment, the old value combined with what the operand
    evaluated to.  No network runs for the receiver. *)
Theorem assign_then_evaluate fuel fuel' this rhs s n :
  heap s !! this = Some n → inputs_ n = [] →
  (∀ v, ∃ s1 s2,
     operator_assign_scalar this v s = Ok tt s1
     ∧ evaluate (S fuel') this s1 = Ok v s2
     ∧ compute_log s2 = compute_log s)
  ∧ (∀ d, ∃ s1 s2,
       operator_assign_double this d s = Ok tt s1
       ∧ evaluate (S fuel') this s1 = Ok (Scalar_of_double d) s2
       ∧ compute_log s2 = compute_log s)
  ∧ (∀ x s0,
       evaluate fuel rhs s = Ok x s0 →
       (∃ s1 s2,
          operator_assign fuel this rhs s = Ok tt s1
          ∧ evaluate (S fuel') this s1 = Ok x s2
          ∧ compute_log s2 = compute_log s0)
       ∧ ∀ op, compound_operation op →
           ∃ s1 s2,
             compound_assign op fuel this rhs s = Ok tt s1
             ∧ evaluate (S fuel') this s1 = Ok (op (value_ n) x) s2
             ∧ compute_log s2 = compute_log s0).
Proof.
  intros Ha Hin. split_and!.
  - intros v. unfold operator_assign_scalar, with_node. rewrite Ha.
    eexists _, _. split; [done|].
    rewrite (evaluate_dirty_leaf fuel' _ this _ (lookup_insert_eq _ _ _))
      by done.
    by split.
  - intros d. unfold operator_assign_double, with_node. rewrite Ha.
    eexists _, _. split; [done|].
    rewrite (evaluate_dirty_leaf fuel' _ this _ (lookup_insert_eq _ _ _))
      by done.
    by split.
  - intros x s0 Hx.
    destruct (wiring_lookup s s0 this n (evaluate_wiring _ _ _ _ _ Hx) Ha)
      as (n0 & Ha0 & [= Hv Hi _ _ _]).
    split.
    + unfold operator_assign, with_node. rewrite Hx. cbn [and_then].
      rewrite Ha0.
      eexists _, _. split; [done|].
      rewrite (evaluate_dirty_leaf fuel' _ this _
                 (lookup_insert_eq _ _ _)) by (simpl; congruence).
      by split.
    + intros op _. unfold compound_assign, with_node. rewrite Hx.
      cbn [and_then]. rewrite Ha0. eexists _, _. split; [done|].
      rewrite (evaluate_dirty_leaf fuel' _ this _
                 (lookup_insert_eq _ _ _)) by (simpl; congruence).
      simpl. rewrite Hv. by split.
Qed.

(** X7: assignment invalidates the cache of a node with inputs.  After the
    assignment of a scalar to a node that runs its own network, clean or
    not, the next [evaluate], when the run of the network returns, has
    called [compute] for this node once more and returns the new value plus
    the network's first output, or the output alone when [is_residual] is
    off. *)
Theorem assign_scalar_recomputes s this n v :
  heap s !! this = Some n → inputs_ n ≠ [] →
  name_ n = EmptyString ∨ named_scalars_ s !! name_ n = Some this →
  ∃ s1,
    operator_assign_scalar this v s = Ok tt s1
    ∧ ∀ fuel net_output s2,
        evaluate_network_ fuel this s1 = Ok net_output s2 →
        ∃ s3 input log,
          compute_log s2 = log ++ [(this, input)]
          ∧ compute_log s3 = compute_log s2
          ∧ evaluate (S fuel) this s1
            = Ok (if is_residual n then scalar_add v net_output
                  else net_output) s3.
Proof.
  intros Ha Hin Hown%resolve_Own.
  unfold operator_assign_scalar, with_node. rewrite Ha.
  eexists. split; [done|]. intros fuel o s2 Hnet.
  set (n1 := set_is_dirty true (set_value v n)) in *.
  assert (Ha1 : heap (store this n1 s) !! this = Some n1)
    by apply lookup_insert_eq.
  assert (Hown1 : resolve this n1 (store this n1 s) = Own) by exact Hown.
  destruct (evaluate_network_own _ _ _ _ _ _ Ha1 Hown1 Hnet)
    as (s0 & input & output & rest & _ & _ & _ & _ & Hs2).
  rewrite (evaluate_dirty_inputs fuel _ this n1 o s2 Ha1 eq_refl Hin Hnet).
  eexists _, input, _. split; [by rewrite Hs2|].
  split; [|reflexivity]. done.
Qed.

(** ** The registries *)

Lemma assign_Assigned this name s s' :
  assign this name s = Assigned s' →
  ∃ n n', heap s !! this = Some n
          ∧ s' = set_named_scalars (<[name:=this]> (named_scalars_ s))
                   (store this n' s)
          ∧ name_ n' = name ∧ value_ n' = value_ n
          ∧ is_residual n' = is_residual n.
Proof.
  unfold assign. destruct (heap s !! this) as [n|]; [|done].
  destruct (blueprints_ s !! name) as [bp|].
  - pose proof (push_blueprint_inputs_fields (input_names bp)
                  (set_name name n) s) as Hp.
    destruct (push_blueprint_inputs _ _ s) as [[x m]|m]; [done|].
    intros [= <-]. destruct Hp as (Hv & _ & _ & _ & Hname & Hr & _).
    by eexists n, _.
  - intros [= <-]. by eexists n, _.
Qed.

(** X8: [assign] and [retrieve] round trip.  After [assign] has returned,
    [retrieve] of the name gives this node, [retrieve] of any other name
    gives what it gave before, and [assign] has touched no other node, no
    blueprint, neither static vector and has run no network. *)
Theorem assign_retrieve this name s s' :
  assign this name s = Assigned s' →
  retrieve name s' = Some this
  ∧ (∀ other, other ≠ name → retrieve other s' = retrieve other s)
  ∧ (∀ b, b ≠ this → heap s' !! b = heap s !! b)
  ∧ blueprints_ s' = blueprints_ s
  ∧ static_inputs s' = static_inputs s
  ∧ static_output s' = static_output s
  ∧ compute_log s' = compute_log s.
Proof.
  intros (n & n' & Ha & -> & _)%assign_Assigned. unfold retrieve. simpl.
  split_and!; try done.
  - apply lookup_insert_eq.
  - intros other Hne. by apply lookup_insert_ne.
  - intros b Hne. by apply lookup_insert_ne.
Qed.

(** X9: the last [assign] of a name wins, and the earlier holder becomes an
    alias.  After [a.assign(name)] and then [b.assign(name)] on another
    node, [evaluate_network_] on [a] delegates to [b] and [b] runs its own
    network; but under the empty name nothing is shared: both run their
    own. *)
Theorem assign_last_wins a b name s s1 s2 :
  a ≠ b →
  assign a name s = Assigned s1 → assign b name s1 = Assigned s2 →
  ∃ na nb,
    heap s2 !! a = Some na ∧ heap s2 !! b = Some nb
    ∧ name_ na = name ∧ name_ nb = name
    ∧ retrieve name s2 = Some b
    ∧ resolve b nb s2 = Own
    ∧ resolve a na s2
      = if bool_decide (name = EmptyString) then Own else Delegate b.
Proof.
  intros Hne (n & na & Ha & -> & Hna & _)%assign_Assigned
    (m & nb & Hb & -> & Hnb & _)%assign_Assigned.
  exists na, nb. unfold retrieve, resolve. simpl.
  rewrite lookup_insert_ne by done. rewrite !lookup_insert_eq.
  rewrite Hna, Hnb, !lookup_insert_eq.
  split_and!; try done.
  - case_bool_decide; [done|]. by rewrite bool_decide_eq_true_2.
  - case_bool_decide; [done|]. by rewrite bool_decide_eq_false_2.
Qed.

Lemma push_blueprint_inputs_blueprints names n s b :
  push_blueprint_inputs names n (set_blueprints b s)
  = push_blueprint_inputs names n s.
Proof.
  revert n. induction names as [|x rest IH]; intros n; simpl; [done|].
  unfold retrieve. simpl. destruct (named_scalars_ s !! x); [apply IH|done].
Qed.

(** X10: [add_blueprint] stores and validates nothing.  A second blueprint
    under a name replaces the first; a blueprint does not change what
    [assign] of another name does; and a blueprint that names an input
    nobody holds is accepted, the failure coming only with the [assign] of
    its name. *)
Theorem add_blueprint_deferred scalar_name input_names net s :
  (∀ input_names' net',
     add_blueprint scalar_name input_names net
       (add_blueprint scalar_name input_names' net' s)
     = add_blueprint scalar_name input_names net s)
  ∧ (∀ this name,
       name ≠ scalar_name →
       assign this name (add_blueprint scalar_name input_names net s)
       = assign_result_map (add_blueprint scalar_name input_names net)
           (assign this name s))
  ∧ (∀ this pre x post,
       is_Some (heap s !! this) →
       input_names = pre ++ x :: post →
       Forall (λ y, is_Some (retrieve y s)) pre → retrieve x s = None →
       ∃ s', assign this scalar_name
               (add_blueprint scalar_name input_names net s)
             = Aborted (diagnostic x) s'
             ∧ retrieve scalar_name s' = retrieve scalar_name s).
Proof.
  split_and!.
  - intros input_names' net'. unfold add_blueprint, set_blueprints. simpl.
    by rewrite insert_insert_eq.
  - intros this name Hne. unfold assign, add_blueprint. simpl.
    destruct (heap s !! this) as [n|]; [|done].
    rewrite lookup_insert_ne by done.
    destruct (blueprints_ s !! name) as [bp|]; [|done].
    rewrite push_blueprint_inputs_blueprints.
    by destruct (push_blueprint_inputs _ _ s) as [[y k]|k].
  - intros this pre x post [n Ha] -> Hpre Hx.
    unfold assign, add_blueprint. simpl. rewrite Ha, lookup_insert_eq.
    simpl. rewrite push_blueprint_inputs_blueprints.
    rewrite push_blueprint_inputs_unresolved by done.
    by eexists.
Qed.

(** X11: in every state that the public interface can bring about, the
    name of a named node is in the registry: line 62 finds a node there,
    this one or another, and never the null pointer that
    [named_scalars_[name_]] would insert for a missing name. *)
Theorem reachable_named_is_registered s a n :
  reachable s → heap s !! a = Some n →
  (name_ n ≠ EmptyString → is_Some (retrieve (name_ n) s))
  ∧ resolve a n s ≠ NullTarget.
Proof.
  intros Hr Ha. split.
  - intros Hname. by apply (reachable_names_registered s Hr a n).
  - by apply reachable_resolve.
Qed.

(** ** Wiring, then evaluation *)

Lemma input_value_store s this n (input : option addr) :
  input ≠ Some this →
  input_value (store this n s) input = input_value s input.
Proof.
  destruct input as [p|]; [|done]. intros Hne. simpl.
  rewrite lookup_insert_ne; [done|]. by intros ->.
Qed.

(** X12: the first network run of a process after [connect].  For a dirty
    node that runs its own network, whose inputs and the connected one are
    null or nodes that need no network, [connect] followed by [evaluate]
    hands [compute] one entry for each input, in the order of connection,
    the connected one last, with [Scalar()] for a null input, and returns
    the value plus the first output (the output alone when [is_residual] is
    off). *)
Theorem connect_then_evaluate s this n scalar activation fuel :
  heap s !! this = Some n → is_dirty_ n = true →
  name_ n = EmptyString ∨ named_scalars_ s !! name_ n = Some this →
  input_dim (net_ n) < INT_MAX →
  static_inputs s = None →
  (∀ p, Some p ∈ inputs_ n ++ [scalar] →
        p ≠ this ∧ ∃ m, heap s !! p = Some m ∧ quiet m) →
  (∀ (w : Net) input output, compute w input output ≠ []) →
  ∃ s1 n1 s2 output net_output rest,
    connect this scalar activation s = Ok tt s1
    ∧ heap s1 !! this = Some n1
    ∧ compute (net_ n1) (map (input_value s) (inputs_ n ++ [scalar])) output
      = net_output :: rest
    ∧ evaluate (S (S (S fuel))) this s1
      = Ok (if is_residual n then scalar_add (value_ n) net_output
            else net_output) s2
    ∧ compute_log s2
      = compute_log s
        ++ [(this, map (input_value s) (inputs_ n ++ [scalar]))].
Proof.
  intros Ha Hd Hown%resolve_Own Hdim Hnone Hquiet Hcompute.
  unfold connect, with_node. rewrite Ha. cbv zeta. simpl.
  rewrite bool_decide_eq_false_2 by lia.
  match goal with
  | |- ∃ s1 _ _ _ _ _, Ok tt (store this ?k s) = Ok tt s1 ∧ _ =>
      set (n1 := k)
  end.
  assert (Hn1 : value_ n1 = value_ n ∧ is_residual n1 = is_residual n
                ∧ inputs_ n1 = inputs_ n ++ [scalar] ∧ name_ n1 = name_ n
                ∧ is_dirty_ n1 = true).
  { unfold n1, set_dirty, initialize.
    repeat case_bool_decide; simpl; by rewrite ?Hd. }
  destruct Hn1 as (Hv1 & Hr1 & Hi1 & Hname1 & Hd1).
  set (s1 := store this n1 s).
  assert (Ha1 : heap s1 !! this = Some n1) by apply lookup_insert_eq.
  assert (Hown1 : resolve this n1 s1 = Own).
  { revert Hown. unfold resolve. simpl. by rewrite Hname1. }
  assert (Hin1 : inputs_ n1 ≠ []).
  { rewrite Hi1. by destruct (inputs_ n). }
  assert (Hval : map (input_value s1) (inputs_ n1)
                 = map (input_value s) (inputs_ n ++ [scalar])).
  { rewrite Hi1. apply map_ext_in. intros [p|] Hp; [|done].
    apply input_value_store. intros [= ->].
    apply list_elem_of_In in Hp. by destruct (Hquiet this Hp). }
  destruct (first_network_evaluation fuel s1 this n1 Ha1 Hown1)
    as (o & s2 & Hnet & Hlog); [done| |done|].
  { intros p Hp. rewrite Hi1 in Hp. destruct (Hquiet p Hp) as (Hne & m & ? & ?).
    exists m. split; [|done]. simpl. by rewrite lookup_insert_ne. }
  destruct (evaluate_network_own _ _ _ _ _ _ Ha1 Hown1 Hnet)
    as (s0 & input & output & rest & _ & _ & _ & Hc & Hs2).
  assert (Hinput : input = map (input_value s) (inputs_ n ++ [scalar])).
  { rewrite Hs2 in Hlog. simpl in Hlog. rewrite Hval in Hlog.
    apply app_inj_tail in Hlog as [_ [= ->]]. done. }
  subst input.
  pose proof (evaluate_dirty_inputs _ _ _ _ _ _ Ha1 Hd1 Hin1 Hnet) as Hev.
  cbv zeta in Hev. rewrite Hv1, Hr1 in Hev.
  eexists s1, n1, _, output, o, rest.
  split_and!; [done|done|done|exact Hev|].
  simpl. by rewrite Hlog, Hval.
Qed.

(** ** [from_neural] and [to_neural] *)

Lemma from_neural_loop_quiet fuel (values : list addr) :
  ∀ i (output : list Scalar) s,
    (i + length values ≤ length output)%nat →
    (∀ a, a ∈ values → ∃ m, heap s !! a = Some m ∧ quiet m) →
    ∃ s', from_neural_loop (S fuel) values i output s
          = Ok (take i output
                ++ map (λ a, input_value s (Some a)) values
                ++ drop (i + length values) output) s'
          ∧ compute_log s' = compute_log s
          ∧ static_inputs s' = static_inputs s
          ∧ static_output s' = static_output s
          ∧ wiring s' = wiring s.
Proof.
  induction values as [|a rest IH]; intros i output s Hlen Hquiet;
    cbn [from_neural_loop].
  - exists s. split_and!; try done. simpl.
    by rewrite Nat.add_0_r, take_drop.
  - destruct (Hquiet a) as (m & Ha & Hq); [by left|].
    destruct (evaluate_quiet fuel s a m Ha Hq)
      as (s1 & Hev & Hin1 & Hout1 & Hlog1 & Hkeep).
    rewrite Hev. cbn [and_then]. simpl in Hlen.
    destruct (IH (S i) (<[i:=settled m]> output) s1)
      as (s' & Hloop & Hlog' & Hin' & Hout' & Hw').
    { rewrite length_insert. lia. }
    { intros b Hb. destruct (Hquiet b) as (k & Hk & Hqk); [by right|].
      destruct (Hkeep b k Hk Hqk) as (k' & ? & ? & _). by exists k'. }
    exists s'. rewrite Hloop.
    split_and!; [|congruence|congruence|congruence|].
    + f_equal.
      rewrite (take_S_r (<[i:=settled m]> output) i (settled m))
        by (apply list_lookup_insert_eq; lia).
      rewrite take_insert_ge by lia. rewrite drop_insert_lt by lia.
      rewrite <- app_assoc. simpl. rewrite Ha. simpl.
      replace (i + S (length rest))%nat with (S i + length rest)%nat by lia.
      do 3 f_equal. apply map_ext_in. intros b Hb. simpl.
      destruct (Hquiet b) as (k & Hk & Hqk).
      { right. by apply list_elem_of_In. }
      destruct (Hkeep b k Hk Hqk) as (k' & Hk' & _ & Hs').
      rewrite Hk, Hk'. simpl. by rewrite Hs'.
    + rewrite Hw'. by eapply evaluate_wiring.
Qed.

Lemma from_neural_quiet_values fuel (values : list addr) s :
  (∀ a, a ∈ values → ∃ m, heap s !! a = Some m ∧ quiet m) →
  ∃ s', from_neural (S fuel) values s
        = Ok (map (λ a, input_value s (Some a)) values) s'
        ∧ compute_log s' = compute_log s
        ∧ static_inputs s' = static_inputs s
        ∧ static_output s' = static_output s
        ∧ wiring s' = wiring s.
Proof.
  intros Hquiet. unfold from_neural.
  destruct (from_neural_loop_quiet fuel values 0
              (replicate (length values) Scalar_default) s)
    as (s' & Hloop & Hrest); [by rewrite length_replicate|done|].
  exists s'. split; [|done]. rewrite Hloop. f_equal.
  rewrite take_0. simpl. rewrite drop_ge by (by rewrite length_replicate).
  by rewrite app_nil_r.
Qed.

(** X13: [from_neural] on elements that need no network (clean, or without
    inputs) returns one scalar for each element, in order: the cache of a
    clean element, the value of a dirty one.  It runs no network, leaves
    the static vectors alone and writes nothing but caches. *)
Theorem from_neural_quiet fuel (values : list addr) nodes s :
  Forall2 (λ a m, heap s !! a = Some m ∧ quiet m) values nodes →
  ∃ s', from_neural (S fuel) values s = Ok (map settled nodes) s'
        ∧ compute_log s' = compute_log s
        ∧ static_inputs s' = static_inputs s
        ∧ static_output s' = static_output s
        ∧ wiring s' = wiring s.
Proof.
  intros Hall.
  assert (Hmap : map (λ a, input_value s (Some a)) values
                 = map settled nodes).
  { induction Hall as [|a m values nodes [Ha _] _ IH]; [done|].
    cbn [map]. f_equal; [|exact IH]. simpl. by rewrite Ha. }
  destruct (from_neural_quiet_values fuel values s) as (s' & Hf & Hrest).
  { intros a Ha. apply list_elem_of_lookup in Ha as [i Hi].
    destruct (Forall2_lookup_l _ _ _ _ _ Hall Hi) as (m & _ & ?).
    by exists m. }
  exists s'. split; [|done]. by rewrite Hf, Hmap.
Qed.

Lemma place_lookup (addrs : list addr) :
  ∀ (nodes : list (NeuralScalar Scalar Net)) s i a m,
    NoDup addrs → addrs !! i = Some a → nodes !! i = Some m →
    heap (place addrs nodes s) !! a = Some m.
Proof.
  induction addrs as [|b addrs IH]; intros nodes s i a m Hnd Ha Hm;
    [done|].
  destruct nodes as [|k nodes]; [done|].
  apply NoDup_cons in Hnd as [Hb Hnd]. unfold place. simpl.
  destruct i as [|i]; simpl in *.
  - injection Ha as <-. injection Hm as <-. apply lookup_insert_eq.
  - rewrite lookup_insert_ne.
    + by apply (IH nodes s i).
    + intros ->. apply Hb. apply list_elem_of_lookup. by exists i.
Qed.

Lemma place_compute_log (addrs : list addr)
    (nodes : list (NeuralScalar Scalar Net)) s :
  compute_log (place addrs nodes s) = compute_log s.
Proof.
  unfold place. revert nodes.
  induction addrs as [|b addrs IH]; intros [|k nodes]; simpl; auto.
Qed.

(** X14: [from_neural] undoes [to_neural].  The nodes that [to_neural]
    builds from a vector of scalars, living at distinct addresses, are
    turned back into that vector by [from_neural], and no network runs. *)
Theorem from_neural_to_neural fuel junk (values : list Scalar)
    (addrs : list addr) s :
  NoDup addrs → length addrs = length values →
  ∃ s', from_neural (S fuel) addrs (place addrs (to_neural junk values) s)
        = Ok values s'
        ∧ compute_log s' = compute_log s.
Proof.
  intros Hnd Hlen.
  set (s0 := place addrs (to_neural junk values) s).
  assert (Hnode : ∀ i a, addrs !! i = Some a →
            ∃ v, values !! i = Some v
                 ∧ heap s0 !! a = Some (NeuralScalar_of_value (junk i) v)).
  { intros i a Ha.
    destruct (lookup_lt_is_Some_2 values i) as [v Hv].
    { rewrite <- Hlen. by eapply lookup_lt_Some. }
    exists v. split; [done|]. apply (place_lookup addrs _ s i); [done|done|].
    unfold to_neural. by rewrite list_lookup_imap, Hv. }
  destruct (from_neural_quiet_values fuel addrs s0)
    as (s' & Hf & Hlog & _).
  { intros a Ha. apply list_elem_of_lookup in Ha as [i Hi].
    destruct (Hnode i a Hi) as (v & _ & Hv). eexists. split; [done|].
    by right. }
  exists s'. split; [|by rewrite Hlog; apply place_compute_log].
  rewrite Hf. f_equal. apply list_eq. intros i.
  rewrite list_lookup_fmap.
  destruct (addrs !! i) as [a|] eqn:Ha; simpl.
  - destruct (Hnode i a Ha) as (v & Hv & Hh). by rewrite Hh, Hv.
  - symmetry. apply lookup_ge_None. rewrite <- Hlen.
    by apply lookup_ge_None.
Qed.

End FurtherProperties.

Section UtilsFunctions.

Context {Scalar Net : Type} `{!Utils Scalar} `{!NeuralNetworkType Scalar Net}.
Context `{!UtilsMath Scalar}.

(** X15: [sin1], [cos1], [sqrt1] and [getDouble] of [NeuralScalarUtils]
    work on what the operand evaluates to: the first three return a fresh
    node without inputs holding the function of that scalar, the last the
    double of it; the graph is as before, and since the operand is left
    clean a repeated call returns the same without changing anything. *)
Theorem unary_functions_collapse junk fuel (v : addr)
    (s : state Scalar Net) x s1 :
  evaluate fuel v s = Ok x s1 →
  let plain := NeuralScalar_of_value junk in
  NeuralScalarUtils_sin1 junk fuel v s = Ok (plain (sin1 x)) s1
  ∧ NeuralScalarUtils_cos1 junk fuel v s = Ok (plain (cos1 x)) s1
  ∧ NeuralScalarUtils_sqrt1 junk fuel v s = Ok (plain (sqrt1 x)) s1
  ∧ NeuralScalarUtils_getDouble fuel v s = Ok (getDouble x) s1
  ∧ wiring s1 = wiring s
  ∧ ∀ fuel',
      NeuralScalarUtils_sin1 junk (S fuel') v s1 = Ok (plain (sin1 x)) s1
      ∧ NeuralScalarUtils_cos1 junk (S fuel') v s1 = Ok (plain (cos1 x)) s1
      ∧ NeuralScalarUtils_sqrt1 junk (S fuel') v s1
        = Ok (plain (sqrt1 x)) s1
      ∧ NeuralScalarUtils_getDouble (S fuel') v s1 = Ok (getDouble x) s1.
Proof.
  intros H plain.
  unfold NeuralScalarUtils_sin1, NeuralScalarUtils_cos1,
    NeuralScalarUtils_sqrt1, NeuralScalarUtils_getDouble, unary_function.
  rewrite H. cbn [and_then].
  split_and!; try done; [by eapply evaluate_wiring|].
  intros fuel'.
  destruct (evaluate_result_cached _ _ _ _ _ H) as (n' & Ha & Hd & Hc).
  rewrite evaluate_S, Ha, Hd. simpl. by rewrite Hc.
Qed.

End UtilsFunctions.

(** * Properties of the spatial vectors *)

Section SpatialProperties.

Import Spatial.

Context {Scalar Vector3 Matrix6 : Type} `{!Algebra Scalar Vector3 Matrix6}.

Implicit Types (v a b : SpatialVector Vector3) (m : Matrix6) (i j k : Z).

(** What [Algebra] is expected to provide: [v[i]] for [i] from 0 to 2 are
    three separate components, those of [zero3()] are [zero], and the sum
    of two 3-vectors is taken by component. *)
Variable zero : Scalar.
Hypothesis component_set_same :
  ∀ (u : Vector3) i x,
    0 ≤ i < 3 → component (set_component u i x) i = x.
Hypothesis component_set_other :
  ∀ (u : Vector3) i j x,
    0 ≤ i < 3 → 0 ≤ j < 3 → i ≠ j →
    component (set_component u i x) j = component u j.

Lemma index_assign_same v i x :
  0 ≤ i < 6 → index (assign_index v i x) i = x.
Proof.
  intros Hi. unfold index, assign_index.
  destruct (Z.ltb_spec i 3); simpl; apply component_set_same; lia.
Qed.

Lemma index_assign_other v i j x :
  0 ≤ i < 6 → 0 ≤ j < 6 → i ≠ j →
  index (assign_index v i x) j = index v j.
Proof.
  intros Hi Hj Hne. unfold index, assign_index.
  destruct (Z.ltb_spec i 3), (Z.ltb_spec j 3); simpl;
    try done; apply component_set_other; lia.
Qed.

(** X16: [operator[]] gives six separate components.  For indices from 0
    to 5, a write through [v[i]] is read back by [v[i]] and leaves every
    other [v[j]] as it was; indices 0 to 2 are those of [top], 3 to 5
    those of [bottom]. *)
Theorem index_write_read v i x :
  0 ≤ i < 6 →
  index (assign_index v i x) i = x
  ∧ (∀ j, 0 ≤ j < 6 → i ≠ j → index (assign_index v i x) j = index v j)
  ∧ index v i = (if bool_decide (i < 3) then component (top v) i
                 else component (bottom v) (i - 3))
  ∧ (bool_decide (i < 3) = true →
     bottom (assign_index v i x) = bottom v)
  ∧ (bool_decide (i < 3) = false → top (assign_index v i x) = top v).
Proof.
  intros Hi. split_and!.
  - by apply index_assign_same.
  - intros j Hj Hne. by apply index_assign_other.
  - unfold index. destruct (Z.ltb_spec i 3).
    + by rewrite bool_decide_eq_true_2.
    + by rewrite bool_decide_eq_false_2 by lia.
  - intros H3%bool_decide_eq_true. unfold assign_index.
    by destruct (Z.ltb_spec i 3); [|lia].
  - intros H3%bool_decide_eq_false. unfold assign_index.
    by destruct (Z.ltb_spec i 3); [lia|].
Qed.

(** The inner loop, for row [i]. *)
Lemma inner_loop m v i (js : list Z) :
  0 ≤ i < 6 →
  ∀ result,
    let result' :=
      foldl (λ result j,
               assign_index result i
                 (plus (index result i) (times (entry m i j) (index v j))))
            result js in
    index result' i
    = foldl (λ sum j, plus sum (times (entry m i j) (index v j)))
        (index result i) js
    ∧ ∀ k, 0 ≤ k < 6 → i ≠ k → index result' k = index result k.
Proof.
  intros Hi. induction js as [|j js IH]; intros result; simpl; [done|].
  destruct (IH (assign_index result i
                  (plus (index result i) (times (entry m i j) (index v j)))))
    as (Hsame & Hother).
  split.
  - rewrite Hsame. by rewrite index_assign_same.
  - intros k Hk Hne. rewrite (Hother k Hk Hne).
    by apply index_assign_other.
Qed.

(** The outer loop, over distinct rows [rows]. *)
Lemma outer_loop m v (rows : list Z) :
  NoDup rows → Forall (λ i, 0 ≤ i < 6) rows →
  ∀ result k,
    0 ≤ k < 6 →
    index
      (foldl (λ result i,
                foldl (λ result j,
                         assign_index result i
                           (plus (index result i)
                              (times (entry m i j) (index v j))))
                      result (seqZ 0 6))
             result rows) k
    = if bool_decide (k ∈ rows) then row_times m v k (index result k)
      else index result k.
Proof.
  induction rows as [|i rows IH]; intros Hnd Hall result k Hk.
  { cbn [foldl]. case_bool_decide as Hin; [|done]. by apply elem_of_nil in Hin. }
  apply NoDup_cons in Hnd as [Hi Hnd].
  apply Forall_cons in Hall as [Hi6 Hall].
  cbn [foldl]. rewrite (IH Hnd Hall _ k Hk).
  destruct (inner_loop m v i (seqZ 0 6) Hi6 result) as (Hsame & Hother).
  destruct (decide (k = i)) as [->|Hne].
  - rewrite (bool_decide_eq_false_2 (i ∈ rows)) by done.
    rewrite (bool_decide_eq_true_2 (i ∈ i :: rows))
      by (apply elem_of_cons; by left).
    exact Hsame.
  - rewrite (Hother k Hk) by done.
    destruct (decide (k ∈ rows)).
    + rewrite (bool_decide_eq_true_2 (k ∈ rows)) by done.
      by rewrite (bool_decide_eq_true_2 (k ∈ i :: rows))
        by (apply elem_of_cons; by right).
    + rewrite (bool_decide_eq_false_2 (k ∈ rows)) by done.
      by rewrite (bool_decide_eq_false_2 (k ∈ i :: rows))
        by (by intros [?|?]%elem_of_cons).
Qed.

Hypothesis component_zero3 :
  ∀ i, 0 ≤ i < 3 → component zero3 i = zero.

Lemma index_default i :
  0 ≤ i < 6 → index (SpatialVector_default (Vector3 := Vector3)) i = zero.
Proof.
  intros Hi. unfold index. simpl.
  destruct (Z.ltb_spec i 3); apply component_zero3; lia.
Qed.

Lemma operator_mul_matrix_index m v i :
  0 ≤ i < 6 → index (operator_mul_matrix m v) i = row_times m v i zero.
Proof.
  intros Hi. unfold operator_mul_matrix.
  rewrite outer_loop; [|apply NoDup_seqZ| |done].
  - rewrite bool_decide_eq_true_2 by (apply elem_of_seqZ; lia).
    by rewrite index_default.
  - apply Forall_forall. intros j Hj%elem_of_seqZ. lia.
Qed.

(** X17: the product of a 6x6 matrix and a spatial vector.  Component [i]
    of [m * v], for [i] from 0 to 5, is row [i] of [m] times [v]: the sum,
    taken from the left and starting at zero, of [m(i, j) * v[j]] for [j]
    from 0 to 5. *)
Theorem matrix_times_vector m v i :
  0 ≤ i < 6 →
  index (operator_mul_matrix m v) i
  = foldl (λ sum j, plus sum (times (entry m i j) (index v j))) zero
      [0; 1; 2; 3; 4; 5].
Proof.
  intros Hi. unfold operator_mul_matrix.
  rewrite outer_loop; [|apply NoDup_seqZ| |done].
  - rewrite bool_decide_eq_true_2 by (apply elem_of_seqZ; lia).
    rewrite index_default by done. reflexivity.
  - apply Forall_forall. intros j Hj%elem_of_seqZ. lia.
Qed.

(** X18: the identity matrix leaves a spatial vector as it is, and the
    zero matrix gives the zero vector, when zero is neutral for the sum,
    one for the product, and zero times anything is zero. *)
Theorem identity_times_vector (one : Scalar) m v i :
  (∀ x, plus zero x = x) → (∀ x, plus x zero = x) →
  (∀ x, times one x = x) → (∀ x, times zero x = zero) →
  0 ≤ i < 6 →
  ((∀ k j, 0 ≤ k < 6 → 0 ≤ j < 6 →
           entry m k j = if bool_decide (k = j) then one else zero) →
   index (operator_mul_matrix m v) i = index v i)
  ∧ ((∀ k j, 0 ≤ k < 6 → 0 ≤ j < 6 → entry m k j = zero) →
     index (operator_mul_matrix m v) i = zero).
Proof.
  intros Hzl Hzr Hone Hzero Hi. split; intros Hm.
  - rewrite operator_mul_matrix_index by done. unfold row_times.
    change (seqZ 0 6) with [0; 1; 2; 3; 4; 5]. cbn [foldl].
    rewrite !Hm by lia.
    assert (i = 0 ∨ i = 1 ∨ i = 2 ∨ i = 3 ∨ i = 4 ∨ i = 5) as Hcases by lia.
    destruct Hcases as [-> | [-> | [-> | [-> | [-> | ->]]]]]; simpl;
      by rewrite ?Hone, ?Hzero, ?Hzl, ?Hzr.
  - rewrite operator_mul_matrix_index by done. unfold row_times.
    change (seqZ 0 6) with [0; 1; 2; 3; 4; 5]. cbn [foldl].
    rewrite !Hm by lia. by rewrite ?Hzero, ?Hzl.
Qed.

(** X19: the product is additive in the vector.  With an associative and
    commutative sum over which the product distributes, and 3-vectors
    added by component, every component of [m * (a + b)] is the sum of
    that component of [m * a] and of [m * b]. *)
Theorem matrix_times_sum m a b i :
  (∀ x y z, plus x (plus y z) = plus (plus x y) z) →
  (∀ x y, plus x y = plus y x) →
  plus zero zero = zero →
  (∀ x y z, times x (plus y z) = plus (times x y) (times x z)) →
  (∀ (u w : Vector3) k,
     0 ≤ k < 3 →
     component (plus3 u w) k = plus (component u k) (component w k)) →
  0 ≤ i < 6 →
  index (operator_mul_matrix m (operator_add a b)) i
  = plus (index (operator_mul_matrix m a) i)
      (index (operator_mul_matrix m b) i).
Proof.
  intros Hassoc Hcomm Hzero Hdistr Hplus3 Hi.
  rewrite !operator_mul_matrix_index by done. unfold row_times.
  assert (Hadd : ∀ j, 0 ≤ j < 6 →
            index (operator_add a b) j = plus (index a j) (index b j)).
  { intros j Hj. unfold index, operator_add. simpl.
    destruct (Z.ltb_spec j 3); apply Hplus3; lia. }
  assert (Hgen : ∀ js, Forall (λ j, 0 ≤ j < 6) js → ∀ c d,
            foldl (λ sum j, plus sum
                     (times (entry m i j) (index (operator_add a b) j)))
                  (plus c d) js
            = plus
                (foldl (λ sum j, plus sum (times (entry m i j) (index a j)))
                       c js)
                (foldl (λ sum j, plus sum (times (entry m i j) (index b j)))
                       d js)).
  { induction 1 as [|j js Hj _ IH]; intros c d; [done|].
    cbn [foldl]. rewrite <- IH. f_equal.
    rewrite (Hadd j Hj), Hdistr.
    set (x := times (entry m i j) (index a j)).
    set (y := times (entry m i j) (index b j)).
    rewrite (Hassoc (plus c d) x y), <- (Hassoc c d x), (Hcomm d x).
    by rewrite (Hassoc c x d), <- (Hassoc (plus c x) d y). }
  rewrite <- Hgen.
  - by rewrite Hzero.
  - apply Forall_forall. intros j Hj%elem_of_seqZ. lia.
Qed.

End SpatialProperties.

(** * The further properties on the sample states *)

Module FurtherExamples.

Import Sample.

Lemma evaluate_twice_witness :
  ∃ s', evaluate 5 2 null_input_state = Ok 5 s'
        ∧ ∀ fuel', evaluate (S fuel') 2 s' = Ok 5 s'.
Proof.
  eexists.
  unshelve refine
    (let E := _ in
     conj E (evaluate_twice 5 2 null_input_state 5 _ E)).
  vm_compute. reflexivity.
Defined.

Lemma evaluate_const_witness :
  ∃ s', evaluate 5 4 nested_state = Ok 15 s'
        ∧ wiring s' = wiring nested_state
        ∧ (∀ b, is_Some (heap s' !! b) ↔ is_Some (heap nested_state !! b))
        ∧ (∃ l, compute_log s' = compute_log nested_state ++ l)
        ∧ (∀ buf, static_inputs nested_state = Some buf →
                  ∃ buf', static_inputs s' = Some buf'
                          ∧ length buf' = length buf).
Proof.
  eexists.
  unshelve refine
    (let E := _ in conj E (evaluate_const 5 4 nested_state 15 _ E)).
  vm_compute. reflexivity.
Defined.

Lemma cycle_state_cyclic : cyclic (λ a, a = 1%positive ∨ a = 2%positive) cycle_state.
Proof.
  intros a [->| ->].
  - eexists _, 0%nat, 2%positive. split_and!; try reflexivity. by right.
  - eexists _, 0%nat, 1%positive. split_and!; try reflexivity. by left.
Qed.

Lemma evaluate_cycle_witness :
  cyclic (λ a, a = 1%positive ∨ a = 2%positive) cycle_state
  ∧ ∀ fuel v s',
      evaluate fuel 1 cycle_state ≠ Ok v s'
      ∧ evaluate_network_ fuel 1 cycle_state ≠ Ok v s'.
Proof.
  refine (conj cycle_state_cyclic
            (evaluate_cycle (λ a, a = 1%positive ∨ a = 2%positive)
               cycle_state 1 cycle_state_cyclic _)).
  by left.
Defined.

Lemma evaluate_dangling_witness :
  (∀ gone fuel, heap dangling_state !! gone = None →
                evaluate (S fuel) gone dangling_state = Undefined)
  ∧ (∀ i p,
       resolve 2 (NeuralScalar_of_inputs 0 [Some 1%positive] true)
         dangling_state = Own →
       [Some 1%positive] !! i = Some (Some p) →
       heap dangling_state !! p = None →
       ∀ fuel v s', evaluate fuel 2 dangling_state ≠ Ok v s')
  ∧ (∀ t,
       resolve 2 (NeuralScalar_of_inputs 0 [Some 1%positive] true)
         dangling_state = Delegate t →
       heap dangling_state !! t = None →
       ∀ fuel, evaluate (S (S (S fuel))) 2 dangling_state = Undefined).
Proof.
  refine (evaluate_dangling dangling_state 2
            (NeuralScalar_of_inputs 0 [Some 1%positive] true) _ _ _).
  - reflexivity.
  - reflexivity.
  - discriminate.
Defined.

Lemma evaluate_static_vector_too_short_witness :
  static_inputs short_vector_state = Some [0]
  ∧ ∀ fuel v s', evaluate fuel 3 short_vector_state ≠ Ok v s'.
Proof.
  unshelve refine
    (conj eq_refl
       (evaluate_static_vector_too_short short_vector_state 3
          (NeuralScalar_of_inputs 0 [Some 1%positive; Some 1%positive] true)
          [0] 1 1 _ _ _ _ _ _)).
  - reflexivity.
  - reflexivity.
  - reflexivity.
  - reflexivity.
  - reflexivity.
  - simpl. lia.
Defined.

Lemma assign_then_evaluate_witness :
  (∀ v, ∃ s1 s2,
     operator_assign_scalar 1 v null_input_state = Ok tt s1
     ∧ evaluate 1 1 s1 = Ok v s2
     ∧ compute_log s2 = compute_log null_input_state)
  ∧ (∀ d, ∃ s1 s2,
       operator_assign_double 1 d null_input_state = Ok tt s1
       ∧ evaluate 1 1 s1 = Ok d s2
       ∧ compute_log s2 = compute_log null_input_state)
  ∧ (∀ x s0,
       evaluate 5 2 null_input_state = Ok x s0 →
       (∃ s1 s2,
          operator_assign 5 1 2 null_input_state = Ok tt s1
          ∧ evaluate 1 1 s1 = Ok x s2
          ∧ compute_log s2 = compute_log s0)
       ∧ ∀ op, compound_operation op →
           ∃ s1 s2,
             compound_assign op 5 1 2 null_input_state = Ok tt s1
             ∧ evaluate 1 1 s1 = Ok (op 5 x) s2
             ∧ compute_log s2 = compute_log s0).
Proof.
  refine (assign_then_evaluate 5 0 1 2 null_input_state (leaf 5) _ _).
  - reflexivity.
  - reflexivity.
Defined.

Lemma assign_scalar_recomputes_witness :
  ∃ s1,
    operator_assign_scalar 2 9 null_input_state = Ok tt s1
    ∧ ∀ fuel net_output s2,
        evaluate_network_ fuel 2 s1 = Ok net_output s2 →
        ∃ s3 input log,
          compute_log s2 = log ++ [(2%positive, input)]
          ∧ compute_log s3 = compute_log s2
          ∧ evaluate (S fuel) 2 s1 = Ok (9 + net_output) s3.
Proof.
  refine (assign_scalar_recomputes null_input_state 2
            (NeuralScalar_of_inputs 0 [Some 1%positive] true) 9 _ _ _).
  - reflexivity.
  - discriminate.
  - by left.
Defined.

Lemma assign_retrieve_witness :
  ∃ s', assign 3 "y" blueprint_state = Assigned s'
        ∧ retrieve "y" s' = Some 3%positive
        ∧ (∀ other, other ≠ "y"%string →
                    retrieve other s' = retrieve other blueprint_state)
        ∧ (∀ b, b ≠ 3%positive →
                heap s' !! b = heap blueprint_state !! b)
        ∧ blueprints_ s' = blueprints_ blueprint_state
        ∧ static_inputs s' = static_inputs blueprint_state
        ∧ static_output s' = static_output blueprint_state
        ∧ compute_log s' = compute_log blueprint_state.
Proof.
  eexists.
  unshelve refine
    (let E := _ in conj E (assign_retrieve 3 "y" blueprint_state _ E)).
  vm_compute. reflexivity.
Defined.

Lemma assign_last_wins_witness :
  ∃ s1 s2,
    assign 2 "w" null_input_state = Assigned s1
    ∧ assign 3 "w" s1 = Assigned s2
    ∧ ∃ na nb,
        heap s2 !! 2%positive = Some na ∧ heap s2 !! 3%positive = Some nb
        ∧ name_ na = "w"%string ∧ name_ nb = "w"%string
        ∧ retrieve "w" s2 = Some 3%positive
        ∧ resolve 3 nb s2 = Own
        ∧ resolve 2 na s2 = Delegate 3.
Proof.
  eexists _, _.
  unshelve refine
    (let E1 := _ in
     let E2 := _ in
     conj E1
       (conj E2
          (assign_last_wins 2 3 "w" null_input_state _ _ _ E1 E2))).
  - vm_compute. reflexivity.
  - vm_compute. reflexivity.
  - discriminate.
Defined.

Lemma add_blueprint_deferred_witness :
  (∀ input_names' net',
     add_blueprint "y" ["x"; "z"]%string (mkSumNet 2 [1])
       (add_blueprint "y" input_names' net' null_input_state)
     = add_blueprint "y" ["x"; "z"]%string (mkSumNet 2 [1])
         null_input_state)
  ∧ (∀ this name,
       name ≠ "y"%string →
       assign this name
         (add_blueprint "y" ["x"; "z"]%string (mkSumNet 2 [1])
            null_input_state)
       = assign_result_map
           (add_blueprint "y" ["x"; "z"]%string (mkSumNet 2 [1]))
           (assign this name null_input_state))
  ∧ (∀ this pre x post,
       is_Some (heap null_input_state !! this) →
       ["x"; "z"]%string = pre ++ x :: post →
       Forall (λ y, is_Some (retrieve y null_input_state)) pre →
       retrieve x null_input_state = None →
       ∃ s', assign this "y"
               (add_blueprint "y" ["x"; "z"]%string (mkSumNet 2 [1])
                  null_input_state)
             = Aborted (diagnostic x) s'
             ∧ retrieve "y" s' = retrieve "y" null_input_state).
Proof.
  exact (add_blueprint_deferred "y" ["x"; "z"]%string (mkSumNet 2 [1])
           null_input_state).
Defined.

Lemma reachable_named_is_registered_witness :
  (name_ alias ≠ EmptyString → is_Some (retrieve (name_ alias) alias_state))
  ∧ resolve 3 alias alias_state ≠ NullTarget.
Proof.
  refine (reachable_named_is_registered alias_state 3 alias
            Examples.alias_state_reachable _).
  reflexivity.
Defined.

Lemma connect_then_evaluate_witness :
  ∃ s1 n1 s2 output net_output rest,
    connect 3 (Some 1%positive) 0%nat null_input_state = Ok tt s1
    ∧ heap s1 !! 3%positive = Some n1
    ∧ compute (net_ n1) [0; 5] output = net_output :: rest
    ∧ evaluate 3 3 s1 = Ok (0 + net_output) s2
    ∧ compute_log s2 = [(3%positive, [0; 5])].
Proof.
  unshelve refine
    (connect_then_evaluate null_input_state 3
       (NeuralScalar_of_inputs 0 [None] true) (Some 1%positive) 0%nat 0
       _ _ _ _ _ _ _).
  - reflexivity.
  - reflexivity.
  - by left.
  - vm_compute. reflexivity.
  - reflexivity.
  - intros p Hp.
    apply elem_of_cons in Hp as [Hp|Hp]; [discriminate|].
    apply elem_of_cons in Hp as [Hp|Hp]; [|by apply elem_of_nil in Hp].
    injection Hp as ->. split; [discriminate|].
    exists (leaf 5). split; [reflexivity|by right].
  - discriminate.
Defined.

Lemma from_neural_quiet_witness :
  ∃ s', from_neural 1 [3; 1]%positive clean_state = Ok [5; 5] s'
        ∧ compute_log s' = compute_log clean_state
        ∧ static_inputs s' = static_inputs clean_state
        ∧ static_output s' = static_output clean_state
        ∧ wiring s' = wiring clean_state.
Proof.
  refine (from_neural_quiet 0 [3; 1]%positive
            [evaluated; set_name "x" (leaf 5)] clean_state _).
  apply Forall2_cons; split; [by split; [|left]|].
  apply Forall2_cons; split; [by split; [|right]|].
  apply Forall2_nil_2.
Defined.

Lemma from_neural_to_neural_witness :
  ∃ s', from_neural 1 [4; 2; 7]%positive
          (place [4; 2; 7]%positive (to_neural (λ _, 0) [7; 8; 9])
             (initial_state (Scalar := Z) (Net := SumNet)))
        = Ok [7; 8; 9] s'
        ∧ compute_log s' = [].
Proof.
  refine (from_neural_to_neural 0 (λ _, 0) [7; 8; 9] [4; 2; 7]%positive
            initial_state _ _).
  - apply (bool_decide_unpack _). vm_compute. exact I.
  - reflexivity.
Defined.

Lemma unary_functions_collapse_witness :
  ∃ s1,
    evaluate 5 2 null_input_state = Ok 5 s1
    ∧ NeuralScalarUtils_sin1 0 5 2 null_input_state = Ok (leaf 4) s1
    ∧ NeuralScalarUtils_cos1 0 5 2 null_input_state = Ok (leaf 6) s1
    ∧ NeuralScalarUtils_sqrt1 0 5 2 null_input_state = Ok (leaf 2) s1
    ∧ NeuralScalarUtils_getDouble 5 2 null_input_state = Ok 5 s1
    ∧ wiring s1 = wiring null_input_state
    ∧ ∀ fuel',
        NeuralScalarUtils_sin1 0 (S fuel') 2 s1 = Ok (leaf 4) s1
        ∧ NeuralScalarUtils_cos1 0 (S fuel') 2 s1 = Ok (leaf 6) s1
        ∧ NeuralScalarUtils_sqrt1 0 (S fuel') 2 s1 = Ok (leaf 2) s1
        ∧ NeuralScalarUtils_getDouble (S fuel') 2 s1 = Ok 5 s1.
Proof.
  eexists.
  unshelve refine
    (let E := _ in
     conj E (unary_functions_collapse 0 5 2 null_input_state 5 _ E)).
  vm_compute. reflexivity.
Defined.

End FurtherExamples.

Module SpatialExamples.

Import Spatial.

(** The integer 3-vectors have three separate components. *)
Lemma V3_component_set_same (u : V3) (i x : Z) :
  0 ≤ i < 3 →
  component (set_component u i x) i = x.
Proof.
  intros Hi. simpl. unfold V3_component, V3_set_component.
  destruct (Z.eqb_spec i 0) as [->|]; [done|].
  by destruct (Z.eqb_spec i 1) as [->|].
Qed.

Lemma V3_component_set_other (u : V3) (i j x : Z) :
  0 ≤ i < 3 → 0 ≤ j < 3 → i ≠ j →
  component (set_component u i x) j = component u j.
Proof.
  intros Hi Hj Hne. simpl.
  unfold V3_component, V3_set_component.
  destruct (Z.eqb_spec i 0), (Z.eqb_spec i 1), (Z.eqb_spec j 0),
    (Z.eqb_spec j 1); simpl; done || lia.
Qed.

Lemma V3_component_zero3 i :
  0 ≤ i < 3 → component (zero3 (Vector3 := V3)) i = 0.
Proof.
  intros _. simpl. unfold V3_component.
  by destruct (i =? 0), (i =? 1).
Qed.

Lemma V3_component_plus3 (u w : V3) k :
  0 ≤ k < 3 →
  component (plus3 u w) k
  = component u k + component w k.
Proof.
  intros _. simpl. unfold V3_component.
  by destruct (k =? 0), (k =? 1).
Qed.

Lemma identity6_entry k j :
  0 ≤ k < 6 → 0 ≤ j < 6 →
  entry identity6 k j
  = if bool_decide (k = j) then 1 else 0.
Proof.
  intros _ _. simpl. unfold identity6.
  destruct (Z.eqb_spec k j).
  - by rewrite bool_decide_eq_true_2.
  - by rewrite bool_decide_eq_false_2.
Qed.

Lemma index_write_read_witness :
  index (assign_index sample_vector 4 9) 4 = 9
  ∧ (∀ j, 0 ≤ j < 6 → 4 ≠ j →
          index (assign_index sample_vector 4 9) j
          = index sample_vector j)
  ∧ index sample_vector 4
    = (if bool_decide (4 < 3)
       then component (top sample_vector) 4
       else component (bottom sample_vector) (4 - 3))
  ∧ (bool_decide (4 < 3) = true →
     bottom (assign_index sample_vector 4 9)
     = bottom sample_vector)
  ∧ (bool_decide (4 < 3) = false →
     top (assign_index sample_vector 4 9)
     = top sample_vector).
Proof.
  refine (index_write_read V3_component_set_same V3_component_set_other
            sample_vector 4 9 _).
  lia.
Defined.

Lemma matrix_times_vector_witness :
  index
    (operator_mul_matrix sample_matrix sample_vector)
    2
  = foldl (λ sum j,
             sum + sample_matrix 2 j
                   * index sample_vector j)
      0 [0; 1; 2; 3; 4; 5].
Proof.
  refine (matrix_times_vector 0 V3_component_set_same V3_component_set_other
            V3_component_zero3 sample_matrix sample_vector
            2 _).
  lia.
Defined.

Lemma identity_times_vector_witness :
  index
    (operator_mul_matrix identity6 sample_vector) 4
  = index sample_vector 4
  ∧ ((∀ k j, 0 ≤ k < 6 → 0 ≤ j < 6 →
             entry identity6 k j = 0) →
     index
       (operator_mul_matrix identity6 sample_vector)
       4 = 0).
Proof.
  unshelve refine
    (let H := identity_times_vector 0 V3_component_set_same
                V3_component_set_other V3_component_zero3 1
                identity6 sample_vector 4
                Z.add_0_l Z.add_0_r Z.mul_1_l Z.mul_0_l _ in
     conj (proj1 H identity6_entry) (proj2 H)).
  lia.
Defined.

Lemma matrix_times_sum_witness :
  index
    (operator_mul_matrix sample_matrix
       (operator_add sample_vector sample_vector)) 5
  = index
      (operator_mul_matrix sample_matrix
         sample_vector) 5
    + index
        (operator_mul_matrix sample_matrix
           sample_vector) 5.
Proof.
  refine (matrix_times_sum 0 V3_component_set_same V3_component_set_other
            V3_component_zero3 sample_matrix sample_vector
            sample_vector 5 Z.add_assoc Z.add_comm eq_refl
            Z.mul_add_distr_l V3_component_plus3 _).
  lia.
Defined.

End SpatialExamples.
